(** * Path-based bounded model checking (seahorn, lib/seahorn/PathBasedBmc.cc)

    A shallow embedding of the path-based BMC engine: the Boolean
    abstraction of the verification condition, the minimal unsat core
    strategies, the classification of critical CFG edges together with the
    active literals derived from the relevant statements of the abstract
    interpreter, and the enumeration loop with its blocking clauses.

    Conventions of the embedding.
    - An [Expr] is a value: hash-consing makes pointer equality of the
      source coincide with structural equality here.
    - A failed [assert] aborts the run; functions that can abort return an
      [option], and [None] is the abort.
    - The collaborators are parameters.  A solver is a function from the
      sequence of the asserted expressions to its answer; the abstract
      interpreter, the symbolic stores, the VC generator, the CFG and the
      order of the expression handles are the fields of [Externals].
    - Logging, statistics and the counters of solver calls are left out. *)

From Stdlib Require Import List Bool Arith Lia Sorted.
From stdpp Require Import prelude strings countable gmap pretty.
Import ListNotations.

(** ** Expressions *)

(** The operators the engine distinguishes.  [TRUE] .. [IFF] form the
    [BoolOp] family; a Boolean constant is [FAPP (FDECL name [BOOL_TY]) []];
    [THEORY] stands for every other operator (arithmetic, bit-vectors,
    arrays, comparisons other than [EQ]) and [TERM] for the terminals. *)
#[local] Unset Elimination Schemes.
Inductive Expr : Type :=
| TRUE
| FALSE
| AND (args : list Expr)
| OR (args : list Expr)
| XOR (a b : Expr)
| NEG (a : Expr)
| IMPL (a b : Expr)
| ITE (c a b : Expr)
| IFF (a b : Expr)
| EQ (a b : Expr)
| FAPP (f : Expr) (args : list Expr)
| FDECL (name : Expr) (sig : list Expr)
| TUPLE (a b : Expr)
| BOOL_TY
| TERM (name : string)
| THEORY (op : string) (args : list Expr).
#[local] Set Elimination Schemes.

(** Induction over expressions, with the hypothesis available for every
    element of an argument list. *)
Section ExprInd.
Variable P : Expr → Prop.
Hypothesis HTRUE : P TRUE.
Hypothesis HFALSE : P FALSE.
Hypothesis HAND : ∀ args, Forall P args → P (AND args).
Hypothesis HOR : ∀ args, Forall P args → P (OR args).
Hypothesis HXOR : ∀ a b, P a → P b → P (XOR a b).
Hypothesis HNEG : ∀ a, P a → P (NEG a).
Hypothesis HIMPL : ∀ a b, P a → P b → P (IMPL a b).
Hypothesis HITE : ∀ c a b, P c → P a → P b → P (ITE c a b).
Hypothesis HIFF : ∀ a b, P a → P b → P (IFF a b).
Hypothesis HEQ : ∀ a b, P a → P b → P (EQ a b).
Hypothesis HFAPP : ∀ f args, P f → Forall P args → P (FAPP f args).
Hypothesis HFDECL : ∀ n sig, P n → Forall P sig → P (FDECL n sig).
Hypothesis HTUPLE : ∀ a b, P a → P b → P (TUPLE a b).
Hypothesis HBOOL : P BOOL_TY.
Hypothesis HTERM : ∀ s, P (TERM s).
Hypothesis HTHEORY : ∀ op args, Forall P args → P (THEORY op args).

Fixpoint Expr_rose_ind (e : Expr) : P e :=
  let all := fix all (l : list Expr) : Forall P l :=
    match l with
    | [] => @List.Forall_nil Expr P
    | x :: xs => @List.Forall_cons Expr P x xs (Expr_rose_ind x) (all xs)
    end in
  match e with
  | TRUE => HTRUE
  | FALSE => HFALSE
  | AND args => HAND args (all args)
  | OR args => HOR args (all args)
  | XOR a b => HXOR a b (Expr_rose_ind a) (Expr_rose_ind b)
  | NEG a => HNEG a (Expr_rose_ind a)
  | IMPL a b => HIMPL a b (Expr_rose_ind a) (Expr_rose_ind b)
  | ITE c a b => HITE c a b (Expr_rose_ind c) (Expr_rose_ind a) (Expr_rose_ind b)
  | IFF a b => HIFF a b (Expr_rose_ind a) (Expr_rose_ind b)
  | EQ a b => HEQ a b (Expr_rose_ind a) (Expr_rose_ind b)
  | FAPP f args => HFAPP f args (Expr_rose_ind f) (all args)
  | FDECL n sig => HFDECL n sig (Expr_rose_ind n) (all sig)
  | TUPLE a b => HTUPLE a b (Expr_rose_ind a) (Expr_rose_ind b)
  | BOOL_TY => HBOOL
  | TERM s => HTERM s
  | THEORY op args => HTHEORY op args (all args)
  end.
End ExprInd.

(** Equality of expression handles ([e1 == e2] in the source). *)
Definition all2 {A : Type} (f : A → A → bool) : list A → list A → bool :=
  fix go (l1 l2 : list A) : bool :=
    match l1, l2 with
    | [], [] => true
    | a :: l1', b :: l2' => f a b && go l1' l2'
    | _, _ => false
    end.

Fixpoint Expr_eqb (x y : Expr) {struct x} : bool :=
  match x, y with
  | TRUE, TRUE | FALSE, FALSE | BOOL_TY, BOOL_TY => true
  | AND l1, AND l2 | OR l1, OR l2 => all2 Expr_eqb l1 l2
  | XOR a b, XOR a' b' | IMPL a b, IMPL a' b' | IFF a b, IFF a' b'
  | EQ a b, EQ a' b' | TUPLE a b, TUPLE a' b' => Expr_eqb a a' && Expr_eqb b b'
  | NEG a, NEG a' => Expr_eqb a a'
  | ITE c a b, ITE c' a' b' => Expr_eqb c c' && Expr_eqb a a' && Expr_eqb b b'
  | FAPP f l1, FAPP f' l2 | FDECL f l1, FDECL f' l2 => Expr_eqb f f' && all2 Expr_eqb l1 l2
  | TERM s, TERM s' => bool_decide (s = s')
  | THEORY o l1, THEORY o' l2 => bool_decide (o = o') && all2 Expr_eqb l1 l2
  | _, _ => false
  end.

Lemma all2_spec {A : Type} (f : A → A → bool) (l1 : list A) :
  Forall (λ a, ∀ b, f a b = true ↔ a = b) l1 →
  ∀ l2, all2 f l1 l2 = true ↔ l1 = l2.
Proof.
  induction 1 as [|a l1 Ha _ IH]; intros [|b l2]; simpl; try (split; congruence).
  rewrite andb_true_iff, Ha, IH. split; [intros [-> ->]; reflexivity | intros [= -> ->]; auto].
Qed.

Lemma Expr_eqb_spec (x y : Expr) : Expr_eqb x y = true ↔ x = y.
Proof.
  revert y. induction x using Expr_rose_ind; intros y; destruct y; simpl;
    try (split; congruence);
    rewrite ?andb_true_iff, ?bool_decide_eq_true;
    repeat match goal with
    | H : Forall _ ?l |- context [all2 Expr_eqb ?l ?l'] =>
        rewrite (all2_spec Expr_eqb l H l')
    | H : ∀ y, Expr_eqb ?a y = true ↔ ?a = y |- context [Expr_eqb ?a ?b] =>
        rewrite (H b)
    end;
    split; intros; destruct_and?; simplify_eq; auto.
Qed.

#[global] Instance Expr_eq_dec : EqDecision Expr.
Proof.
  intros x y. destruct (Expr_eqb x y) eqn:E.
  - left. apply Expr_eqb_spec, E.
  - right. intros H. apply Expr_eqb_spec in H. congruence.
Defined.

Lemma Expr_eqb_neq (x y : Expr) : Expr_eqb x y = false ↔ x ≠ y.
Proof. rewrite <- Expr_eqb_spec. destruct (Expr_eqb x y); split; congruence. Qed.

(** Expressions can be counted, so that they can be the elements of finite
    sets and the keys of finite maps. *)
Fixpoint Expr_to_tree (e : Expr) {struct e} : gen_tree string :=
  match e with
  | TRUE => GenNode 0 []
  | FALSE => GenNode 1 []
  | AND args => GenNode 2 (map Expr_to_tree args)
  | OR args => GenNode 3 (map Expr_to_tree args)
  | XOR a b => GenNode 4 [Expr_to_tree a; Expr_to_tree b]
  | NEG a => GenNode 5 [Expr_to_tree a]
  | IMPL a b => GenNode 6 [Expr_to_tree a; Expr_to_tree b]
  | ITE c a b => GenNode 7 [Expr_to_tree c; Expr_to_tree a; Expr_to_tree b]
  | IFF a b => GenNode 8 [Expr_to_tree a; Expr_to_tree b]
  | EQ a b => GenNode 9 [Expr_to_tree a; Expr_to_tree b]
  | FAPP f args => GenNode 10 (Expr_to_tree f :: map Expr_to_tree args)
  | FDECL n sig => GenNode 11 (Expr_to_tree n :: map Expr_to_tree sig)
  | TUPLE a b => GenNode 12 [Expr_to_tree a; Expr_to_tree b]
  | BOOL_TY => GenNode 13 []
  | TERM s => GenLeaf s
  | THEORY op args => GenNode 14 (GenLeaf op :: map Expr_to_tree args)
  end.

Fixpoint Expr_of_tree (t : gen_tree string) {struct t} : Expr :=
  match t with
  | GenLeaf s => TERM s
  | GenNode 0 _ => TRUE
  | GenNode 1 _ => FALSE
  | GenNode 2 ts => AND (map Expr_of_tree ts)
  | GenNode 3 ts => OR (map Expr_of_tree ts)
  | GenNode 4 [a; b] => XOR (Expr_of_tree a) (Expr_of_tree b)
  | GenNode 5 [a] => NEG (Expr_of_tree a)
  | GenNode 6 [a; b] => IMPL (Expr_of_tree a) (Expr_of_tree b)
  | GenNode 7 [c; a; b] => ITE (Expr_of_tree c) (Expr_of_tree a) (Expr_of_tree b)
  | GenNode 8 [a; b] => IFF (Expr_of_tree a) (Expr_of_tree b)
  | GenNode 9 [a; b] => EQ (Expr_of_tree a) (Expr_of_tree b)
  | GenNode 10 (f :: ts) => FAPP (Expr_of_tree f) (map Expr_of_tree ts)
  | GenNode 11 (n :: ts) => FDECL (Expr_of_tree n) (map Expr_of_tree ts)
  | GenNode 12 [a; b] => TUPLE (Expr_of_tree a) (Expr_of_tree b)
  | GenNode 14 (GenLeaf op :: ts) => THEORY op (map Expr_of_tree ts)
  | _ => BOOL_TY
  end.

Lemma Expr_of_to_tree (e : Expr) : Expr_of_tree (Expr_to_tree e) = e.
Proof.
  assert (Hmap : ∀ l, Forall (λ e, Expr_of_tree (Expr_to_tree e) = e) l →
                      map Expr_of_tree (map Expr_to_tree l) = l).
  { induction 1 as [|x xs Hx _ IH]; simpl; [reflexivity|]. rewrite Hx, IH. reflexivity. }
  induction e using Expr_rose_ind; simpl;
    rewrite ?Hmap by assumption; congruence.
Qed.

#[global] Instance Expr_countable : Countable Expr :=
  inj_countable' Expr_to_tree Expr_of_tree Expr_of_to_tree.

(** ** Boolean operators of the expression kernel *)

(** [isOp<BoolOp>]: the operator of the node is one of the Boolean family. *)
Definition isBoolOp (e : Expr) : bool :=
  match e with
  | TRUE | FALSE | AND _ | OR _ | XOR _ _ | NEG _
  | IMPL _ _ | ITE _ _ _ | IFF _ _ => true
  | _ => false
  end.

Definition isTRUE (e : Expr) : bool :=
  match e with TRUE => true | _ => false end.

Definition isFALSE (e : Expr) : bool :=
  match e with FALSE => true | _ => false end.

(** Modelled from the spec: [bind::boolConst] and [bind::isBoolConst] of the
    expression kernel, which is not under src/.  A Boolean constant is a
    named 0-arity symbol of Boolean sort: the application, to no argument,
    of a declaration whose signature is the Boolean type alone. *)
Definition boolConst (name : Expr) : Expr := FAPP (FDECL name [BOOL_TY]) [].

Definition isBoolConst (e : Expr) : bool :=
  match e with
  | FAPP (FDECL _ [BOOL_TY]) [] => true
  | _ => false
  end.

(** Modelled from the spec: [op::boolop::lneg], [land] and [lor] of the
    expression kernel, which is not under src/.  They build the negation,
    the binary conjunction and the binary disjunction that the rewrite rules
    of the pre-NNF pass show: [IMPL(a,b) -> OR(NEG(a), b)] and so on. *)
Definition lneg (a : Expr) : Expr := NEG a.
Definition land (a b : Expr) : Expr := AND [a; b].
Definition lor (a b : Expr) : Expr := OR [a; b].

(** [PreNNF::operator()]: remove all Boolean operators except AND/OR/NEG.
    The arity of an [ITE] is three by the type of the constructor; on an
    [XOR] the assertion fails. *)
Definition PreNNF (exp : Expr) : option Expr :=
  if negb (isBoolOp exp) then Some exp
  else
    match exp with
    | XOR _ _ => None
    | IMPL a b => Some (lor (lneg a) b)
    | ITE c e1 e2 => Some (lor (land c e1) (land (lneg c) e2))
    | IFF a b => Some (land (lor (lneg a) b) (lor (lneg b) a))
    | _ => Some exp
    end.

(** Modelled from the spec: [dagVisit] with the visitor [op::boolop::BS]
    wrapped around a rewriter; both belong to the expression kernel, which is
    not under src/.  The rewrite is bottom-up on the Boolean nodes of the
    formula: at a node of the Boolean family the children are visited first
    and the rewriter is applied to the node rebuilt from them; a node with
    any other operator is a theory term and is returned as it is. *)
Fixpoint visit_BS (r : Expr → option Expr) (e : Expr) {struct e} : option Expr :=
  let kids := fix kids (l : list Expr) : option (list Expr) :=
    match l with
    | [] => Some []
    | k :: ks =>
        match visit_BS r k, kids ks with
        | Some k', Some ks' => Some (k' :: ks')
        | _, _ => None
        end
    end in
  match e with
  | TRUE | FALSE => r e
  | AND args => args' ← kids args; r (AND args')
  | OR args => args' ← kids args; r (OR args')
  | XOR a b => a' ← visit_BS r a; b' ← visit_BS r b; r (XOR a' b')
  | NEG a => a' ← visit_BS r a; r (NEG a')
  | IMPL a b => a' ← visit_BS r a; b' ← visit_BS r b; r (IMPL a' b')
  | ITE c a b =>
      c' ← visit_BS r c; a' ← visit_BS r a; b' ← visit_BS r b; r (ITE c' a' b')
  | IFF a b => a' ← visit_BS r a; b' ← visit_BS r b; r (IFF a' b')
  | _ => Some e
  end.

(** The list form of the children's visit, for the lemmas. *)
Fixpoint visit_BS_kids (r : Expr → option Expr) (l : list Expr) : option (list Expr) :=
  match l with
  | [] => Some []
  | k :: ks =>
      match visit_BS r k, visit_BS_kids r ks with
      | Some k', Some ks' => Some (k' :: ks')
      | _, _ => None
      end
  end.

Definition pre_nnf (exp : Expr) : option Expr := visit_BS PreNNF exp.

(** Modelled from the spec: [op::boolop::nnf] of the expression kernel, which
    is not under src/.  Standard negation normal form of a formula whose
    Boolean operators are AND, OR and NEG: negations are pushed inward
    through AND and OR, double negations cancel, and a negation stays on
    anything else.  [neg] tells whether the node is under a pending
    negation. *)
Fixpoint nnf_pol (neg : bool) (e : Expr) {struct e} : Expr :=
  match e with
  | AND args =>
      if neg then OR (map (nnf_pol true) args) else AND (map (nnf_pol false) args)
  | OR args =>
      if neg then AND (map (nnf_pol true) args) else OR (map (nnf_pol false) args)
  | NEG a => nnf_pol (negb neg) a
  | _ => if neg then NEG e else e
  end.

Definition nnf (e : Expr) : Expr := nnf_pol false e.

(** ** The Boolean abstraction *)

(** The actions a visitor returns to [dagVisit]. *)
Inductive VisitAction : Type :=
| skipKids
| doKids
| changeTo (e : Expr).

(** Modelled from the spec: [dagVisit] of the expression kernel, which is not
    under src/, for a visitor that returns one of the three actions above:
    keep the node and stop, rebuild the node from its visited children, or
    replace the node. *)
Fixpoint dagVisit (v : Expr → VisitAction) (e : Expr) {struct e} : Expr :=
  match v e with
  | skipKids => e
  | changeTo e' => e'
  | doKids =>
      match e with
      | AND args => AND (map (dagVisit v) args)
      | OR args => OR (map (dagVisit v) args)
      | XOR a b => XOR (dagVisit v a) (dagVisit v b)
      | NEG a => NEG (dagVisit v a)
      | IMPL a b => IMPL (dagVisit v a) (dagVisit v b)
      | ITE c a b => ITE (dagVisit v c) (dagVisit v a) (dagVisit v b)
      | IFF a b => IFF (dagVisit v a) (dagVisit v b)
      | EQ a b => EQ (dagVisit v a) (dagVisit v b)
      | FAPP f args => FAPP (dagVisit v f) (map (dagVisit v) args)
      | FDECL n sig => FDECL (dagVisit v n) (map (dagVisit v) sig)
      | TUPLE a b => TUPLE (dagVisit v a) (dagVisit v b)
      | THEORY op args => THEORY op (map (dagVisit v) args)
      | TRUE | FALSE | BOOL_TY | TERM _ => e
      end
  end.

Module BA.
Definition is_pos_bool_lit (e : Expr) : bool :=
  isTRUE e || isFALSE e || isBoolConst e.

Definition is_neg_bool_lit (e : Expr) : bool :=
  match e with
  | NEG a => is_pos_bool_lit a
  | _ => false
  end.

Definition is_bool_lit (e : Expr) : bool :=
  is_pos_bool_lit e || is_neg_bool_lit e.

(** [BA::operator()].  Pre: exp is in NNF. *)
Definition visit (exp : Expr) : VisitAction :=
  if is_pos_bool_lit exp then skipKids
  else
    match exp with
    | NEG a => if is_pos_bool_lit a then doKids else changeTo TRUE
    | AND _ | OR _ => doKids
    | EQ a b =>
        if is_bool_lit a && is_bool_lit b then doKids
        else changeTo TRUE
    | _ => changeTo TRUE
    end.
End BA.

(** [bool_abstraction(Expr)]. *)
Definition bool_abstraction (exp : Expr) : option Expr :=
  exp1 ← pre_nnf exp;
  Some (dagVisit BA.visit (nnf exp1)).

(** [bool_abstraction(ExprVector&, ExprVector&)]: the abstraction of every
    clause is pushed at the back of [abs_side], then the clauses that are
    [TRUE] are erased. *)
Fixpoint bool_abstraction_push (side abs_side : list Expr) : option (list Expr) :=
  match side with
  | [] => Some abs_side
  | exp :: rest =>
      bexp ← bool_abstraction exp;
      bool_abstraction_push rest (abs_side ++ [bexp])
  end.

Definition bool_abstraction_vec (side abs_side : list Expr) : option (list Expr) :=
  abs ← bool_abstraction_push side abs_side;
  Some (List.filter (λ e, negb (isTRUE e)) abs).

(** ** Truth of a formula in a model *)

(** A model gives a truth value to every atom, that is to every node that
    is not built by a Boolean operator: Boolean constants, equalities and
    theory predicates. *)
Fixpoint eval (M : Expr → bool) (e : Expr) {struct e} : bool :=
  match e with
  | TRUE => true
  | FALSE => false
  | AND args => forallb (eval M) args
  | OR args => existsb (eval M) args
  | XOR a b => xorb (eval M a) (eval M b)
  | NEG a => negb (eval M a)
  | IMPL a b => implb (eval M a) (eval M b)
  | ITE c a b => if eval M c then eval M a else eval M b
  | IFF a b => Bool.eqb (eval M a) (eval M b)
  | _ => M e
  end.

(** A model satisfies a sequence of clauses when it satisfies each one. *)
Definition sat (M : Expr → bool) (side : list Expr) : bool :=
  forallb (eval M) side.

(** An [XOR] among the Boolean nodes of a formula, the nodes that the
    pre-NNF rewrite visits. *)
Fixpoint has_XOR (e : Expr) {struct e} : bool :=
  match e with
  | XOR _ _ => true
  | AND args | OR args => existsb has_XOR args
  | NEG a => has_XOR a
  | IMPL a b | IFF a b => has_XOR a || has_XOR b
  | ITE c a b => has_XOR c || has_XOR a || has_XOR b
  | _ => false
  end.

(** An [XOR] operator anywhere in a formula, among its Boolean nodes or
    below an operator of another family. *)
Fixpoint contains_XOR (e : Expr) {struct e} : bool :=
  match e with
  | XOR _ _ => true
  | AND args | OR args | THEORY _ args => existsb contains_XOR args
  | NEG a => contains_XOR a
  | IMPL a b | IFF a b | EQ a b | TUPLE a b => contains_XOR a || contains_XOR b
  | ITE c a b => contains_XOR c || contains_XOR a || contains_XOR b
  | FAPP f args | FDECL f args => contains_XOR f || existsb contains_XOR args
  | TRUE | FALSE | BOOL_TY | TERM _ => false
  end.

(** The Boolean skeletons: Boolean literals, AND and OR of skeletons, and
    equalities between Boolean literals. *)
Fixpoint skeleton (e : Expr) {struct e} : bool :=
  BA.is_pos_bool_lit e ||
  match e with
  | NEG a => BA.is_pos_bool_lit a
  | AND args | OR args => forallb skeleton args
  | EQ a b => BA.is_bool_lit a && BA.is_bool_lit b
  | _ => false
  end.

(** The skeleton extraction as the specification words it (section 4.1,
    step 3), to be compared with the visitor [BA.visit] run by [dagVisit]:
    a positive Boolean literal and the negation of one are kept, AND and OR
    are rebuilt from the skeletons of their children, so is an equality
    between Boolean literals, and everything else becomes [TRUE]. *)
Fixpoint skeleton_spec (e : Expr) {struct e} : Expr :=
  if BA.is_pos_bool_lit e then e
  else
    match e with
    | NEG l => if BA.is_pos_bool_lit l then NEG l else TRUE
    | AND args => AND (map skeleton_spec args)
    | OR args => OR (map skeleton_spec args)
    | EQ a b =>
        if BA.is_bool_lit a && BA.is_bool_lit b
        then EQ (skeleton_spec a) (skeleton_spec b)
        else TRUE
    | _ => TRUE
    end.

(** ** Minimal unsatisfiable cores *)

(** [boost::tribool]. *)
Inductive tribool : Type :=
| tri_true
| tri_false
| indeterminate.

(** The conversion [(bool) res]: true for the value true alone. *)
Definition tribool_to_bool (t : tribool) : bool :=
  match t with
  | tri_true => true
  | _ => false
  end.

(** The SMT solver is external.  The engine uses it by [reset], a sequence
    of [assertExpr] and [solve]: the answer is a function of the sequence of
    the asserted expressions. *)
Definition ZSolver : Type := list Expr → tribool.

Module naive_muc.

(** [naive_muc::check]: the solver is reset, the assumptions and then the
    clauses of the range are asserted, and the solver is called.  The counter
    of solver calls is kept for the statistics only and is left out. *)
Definition check (m_solver : ZSolver) (range assumptions : list Expr) : tribool :=
  m_solver (assumptions ++ range).

(** The loop of [naive_muc::run]: the clause at [i] is overwritten with the
    last one and the solver is called on all the clauses but the last; when
    the answer is true the clause is put back and [i] advances, when it is
    false the last clause is popped.  Every turn either advances [i] or
    shortens [out], so [fuel] turns are enough when [fuel] is the length of
    [out] at the start. *)
Fixpoint run_loop (m_solver : ZSolver) (assumptions : list Expr)
    (fuel : nat) (out : list Expr) (i : nat) {struct fuel} : option (list Expr) :=
  if i <? length out then
    match fuel with
    | 0 => None
    | S fuel' =>
        match out !! i, last out with
        | Some saved, Some back =>
            let out1 := <[i := back]> out in
            match check m_solver (removelast out1) assumptions with
            | tri_true =>
                run_loop m_solver assumptions fuel' (<[i := saved]> out1) (S i)
            | tri_false =>
                run_loop m_solver assumptions fuel' (removelast out1) i
            | indeterminate => None
            end
        | _, _ => None
        end
    end
  else Some out.

(** [naive_muc::run(f, assumptions, out)]. *)
Definition run_with (m_solver : ZSolver) (f assumptions out : list Expr)
    : option (list Expr) :=
  if tribool_to_bool (check m_solver f assumptions) then None
  else
    let out := out ++ f in
    run_loop m_solver assumptions (length out) out 0.

(** [naive_muc::run(f, out)], on an empty [out]. *)
Definition run (m_solver : ZSolver) (f : list Expr) : option (list Expr) :=
  run_with m_solver f [] [].

(** The assertions that [check] leaves in the solver: the solver was reset,
    then the assumptions and the clauses of the range were asserted. *)
Definition check_solver (range assumptions : list Expr) : list Expr :=
  assumptions ++ range.

(** The loop of [naive_muc::run] once more, now with the assertions that
    are in the solver: [ctx] is what the last [check] left there.  The
    result is the core with the context of the solver at the end. *)
Fixpoint run_loop_solver (m_solver : ZSolver) (assumptions : list Expr)
    (fuel : nat) (out : list Expr) (i : nat) (ctx : list Expr) {struct fuel}
    : option (list Expr * list Expr) :=
  if i <? length out then
    match fuel with
    | 0 => None
    | S fuel' =>
        match out !! i, last out with
        | Some saved, Some back =>
            let out1 := <[i := back]> out in
            let ctx := check_solver (removelast out1) assumptions in
            match check m_solver (removelast out1) assumptions with
            | tri_true =>
                run_loop_solver m_solver assumptions fuel'
                  (<[i := saved]> out1) (S i) ctx
            | tri_false =>
                run_loop_solver m_solver assumptions fuel' (removelast out1) i ctx
            | indeterminate => None
            end
        | _, _ => None
        end
    end
  else Some (out, ctx).

Definition run_with_solver (m_solver : ZSolver) (f assumptions out : list Expr)
    : option (list Expr * list Expr) :=
  if tribool_to_bool (check m_solver f assumptions) then None
  else
    let out := out ++ f in
    run_loop_solver m_solver assumptions (length out) out 0
      (check_solver f assumptions).

Definition run_solver (m_solver : ZSolver) (f : list Expr)
    : option (list Expr * list Expr) :=
  run_with_solver m_solver f [] [].

End naive_muc.

Module binary_search_muc.

(** Minimum size of the formula to perform binary search on it. *)
Definition threshold : nat := 10.

Definition check_with_assumptions (m_solver : ZSolver)
    (range assumptions : list Expr) : tribool :=
  m_solver (assumptions ++ range).

(** [binary_search_muc::run_with_assumptions]: the clauses of the core are
    pushed at the back of [core].  A call recurses on a half of its range,
    so [fuel] calls in depth are enough when [fuel] exceeds the length of
    [f]. *)
Fixpoint run_with_assumptions (m_solver : ZSolver) (fuel : nat)
    (f assumptions core : list Expr) {struct fuel} : option (list Expr) :=
  match fuel with
  | 0 => None
  | S fuel' =>
      if tribool_to_bool (check_with_assumptions m_solver f assumptions) then None
      else
        let size := length f in
        if size <=? threshold then
          if size =? 0 then Some core
          else if size =? 1 then Some (core ++ f)
          else
            small_core ← naive_muc.run_with m_solver f assumptions [];
            Some (core ++ small_core)
        else
          let A := take (size / 2) f in
          let B := drop (size / 2) f in
          match check_with_assumptions m_solver A assumptions with
          | tri_false => run_with_assumptions m_solver fuel' A assumptions core
          | tri_true =>
              match check_with_assumptions m_solver B assumptions with
              | tri_false => run_with_assumptions m_solver fuel' B assumptions core
              | tri_true =>
                  (* minimize A assuming B (plus assumptions) is an unsat core *)
                  core1 ← run_with_assumptions m_solver fuel' A (assumptions ++ B) core;
                  (* minimize B assuming core (plus assumptions) is an unsat core *)
                  run_with_assumptions m_solver fuel' B (assumptions ++ core1) core1
              | indeterminate => None
              end
          | indeterminate => None
          end
  end.

(** [binary_search_muc::run(f, out)], on an empty [out]. *)
Definition run (m_solver : ZSolver) (f : list Expr) : option (list Expr) :=
  run_with_assumptions m_solver (S (length f)) f [] [].

(** [run_with_assumptions] once more, now with the assertions that are in
    the solver at the end: those of the last [check_with_assumptions], or of
    the last check of the naive strategy. *)
Fixpoint run_with_assumptions_solver (m_solver : ZSolver) (fuel : nat)
    (f assumptions core : list Expr) {struct fuel}
    : option (list Expr * list Expr) :=
  match fuel with
  | 0 => None
  | S fuel' =>
      if tribool_to_bool (check_with_assumptions m_solver f assumptions) then None
      else
        let size := length f in
        if size <=? threshold then
          if size =? 0 then Some (core, assumptions ++ f)
          else if size =? 1 then Some (core ++ f, assumptions ++ f)
          else
            '(small_core, ctx) ← naive_muc.run_with_solver m_solver f assumptions [];
            Some (core ++ small_core, ctx)
        else
          let A := take (size / 2) f in
          let B := drop (size / 2) f in
          match check_with_assumptions m_solver A assumptions with
          | tri_false => run_with_assumptions_solver m_solver fuel' A assumptions core
          | tri_true =>
              match check_with_assumptions m_solver B assumptions with
              | tri_false =>
                  run_with_assumptions_solver m_solver fuel' B assumptions core
              | tri_true =>
                  '(core1, _) ←
                    run_with_assumptions_solver m_solver fuel' A (assumptions ++ B) core;
                  run_with_assumptions_solver m_solver fuel' B
                    (assumptions ++ core1) core1
              | indeterminate => None
              end
          | indeterminate => None
          end
  end.

Definition run_solver (m_solver : ZSolver) (f : list Expr)
    : option (list Expr * list Expr) :=
  run_with_assumptions_solver m_solver (S (length f)) f [] [].

End binary_search_muc.

(** Satisfiability of a sequence of clauses among the interpretations of
    the theory: some interpretation makes every clause hold. *)
Definition satisfiable {Interp : Type} (holds : Interp → Expr → Prop)
    (l : list Expr) : Prop :=
  ∃ m, ∀ e, e ∈ l → holds m e.

(** The clauses of [C] other than [c]. *)
Definition without (c : Expr) (C : list Expr) : list Expr :=
  List.filter (λ x, negb (Expr_eqb x c)) C.

(** A minimal unsat core of [F]: made of clauses of [F], unsatisfiable, and
    satisfiable once any of its clauses is taken out. *)
Definition minimal_core {Interp : Type} (holds : Interp → Expr → Prop)
    (F C : list Expr) : Prop :=
  C ⊆ F ∧
  ¬ satisfiable holds C ∧
  ∀ c, c ∈ C → satisfiable holds (without c C).

(** The loop of [naive_muc::run] seen on the two parts of [out], the clauses
    before [i] and the clauses from [i] on: the first of the latter is tested
    with the last clause moved in its place. *)
Definition rotate_back (rest : list Expr) : list Expr :=
  match last rest with
  | Some back => back :: removelast rest
  | None => []
  end.

Fixpoint split_loop (m_solver : ZSolver) (assumptions : list Expr)
    (fuel : nat) (kept todo : list Expr) {struct fuel} : option (list Expr) :=
  match todo with
  | [] => Some kept
  | saved :: rest =>
      match fuel with
      | 0 => None
      | S fuel' =>
          match m_solver (assumptions ++ kept ++ rotate_back rest) with
          | tri_true => split_loop m_solver assumptions fuel' (kept ++ [saved]) rest
          | tri_false => split_loop m_solver assumptions fuel' kept (rotate_back rest)
          | indeterminate => None
          end
      end
  end.

(** A solver for the examples: it decides satisfiability among the two
    constant valuations, the one that makes every atom true and the one that
    makes every atom false. *)
Definition const_solver : ZSolver :=
  λ l, if sat (λ _, true) l || sat (λ _, false) l then tri_true else tri_false.

(** The interpretations that [const_solver] ranges over: a Boolean is the
    truth value of every atom. *)
Definition const_holds (b : bool) (e : Expr) : Prop :=
  eval (λ _, b) e = true.

(** ** Critical edges of the control-flow graph *)

(** A basic block is known by its address. *)
Definition BasicBlock : Type := nat.

(** The CFG provider gives the successors and the predecessors of a block,
    in the order in which they are iterated. *)
Record CFG : Type := {
  succs : BasicBlock → list BasicBlock;
  preds : BasicBlock → list BasicBlock
}.

(** A CFG edge is critical if it is not the only leaving its source block
    and the only entering to the destination block. *)
Definition isCriticalEdge (g : CFG) (src dst : BasicBlock) : bool :=
  let not_only_leaving := existsb (λ s, negb (s =? dst)) (succs g src) in
  let not_only_entering := existsb (λ p, negb (p =? src)) (preds g dst) in
  not_only_leaving && not_only_entering.

(** The first child of a node ([e->left()]), when there is one. *)
Definition first_kid (e : Expr) : option Expr :=
  match e with
  | AND (a :: _) | OR (a :: _) | THEORY _ (a :: _) => Some a
  | XOR a _ | NEG a | IMPL a _ | ITE a _ _ | IFF a _ | EQ a _ | TUPLE a _ => Some a
  | FAPP f _ => Some f
  | FDECL n _ => Some n
  | _ => None
  end.

(** Return true if e is a tuple. *)
Definition isTuple (e : Expr) : bool :=
  match first_kid e with
  | Some (FDECL (TUPLE _ _) _) => true
  | _ => false
  end.

(** Return the tuple elements as a pair; the assertion is [isTuple e]. *)
Definition getTuple (e : Expr) : option (Expr * Expr) :=
  match first_kid e with
  | Some (FDECL (TUPLE src dst) _) => Some (src, dst)
  | _ => None
  end.

(** ** The statements of the abstract interpreter *)

(** The kinds of statement that the engine tells apart ([is_bin_op()] and
    the like); [other_statement] is any other kind. *)
Inductive statement_kind : Type :=
| bin_op | int_cast | select | bool_bin_op | bool_assign_cst
| arr_write | arr_read | arr_assume | arr_assign
| assume | bool_assume
| assign | bool_assign_var
| other_statement.

(** A statement: its kind and, when the left-hand side of an assignment is
    an LLVM PHI node, the block that holds the PHI node
    ([Phi->getParent()]). *)
Record statement : Type := {
  kind : statement_kind;
  lhs_phi : option BasicBlock
}.

(** Where a statement lives: in a basic block or on a CFG edge. *)
Inductive parent_t : Type :=
| parent_block (b : BasicBlock)
| parent_edge (src dst : BasicBlock).

(** [get_basic_block()] is null for a statement on an edge. *)
Definition get_basic_block (p : parent_t) : option BasicBlock :=
  match p with
  | parent_block b => Some b
  | parent_edge _ _ => None
  end.

Record statement_wrapper : Type := {
  m_s : statement;
  m_parent : parent_t
}.

(** A symbolic store of the VC generator. *)
Record SymStore : Type := {
  SymStore_eval : Expr → Expr;
  SymStore_isDefined : Expr → bool
}.

(** What the inference of the active Boolean literals ends with: the set of
    the literals, a statement that is not recognised (the function then
    returns true), or a failed assertion. *)
Inductive active_lits : Type :=
| lits_found (active_bool_lits : gset Expr)
| lits_unknown
| lits_assert_failed.

(** ** The engine *)

(** Modelled from the spec: the comparison and the disjunction of
    [boost::tribool], a library that is not under src/.  A comparison with
    an indeterminate value is indeterminate; a disjunction is true when one
    side is true, false when both are false and indeterminate otherwise. *)
Definition tri_eq (x y : tribool) : tribool :=
  match x, y with
  | indeterminate, _ | _, indeterminate => indeterminate
  | tri_true, tri_true | tri_false, tri_false => tri_true
  | _, _ => tri_false
  end.

Definition tri_or (x y : tribool) : tribool :=
  match x, y with
  | tri_true, _ | _, tri_true => tri_true
  | tri_false, tri_false => tri_false
  | _, _ => indeterminate
  end.

Inductive muc_method_t : Type := MUC_NAIVE | MUC_ASSUMPTIONS | MUC_BINARY_SEARCH.

(** Modelled from the spec: [op::boolop::land] over a range, of the
    expression kernel, which is not under src/: the conjunction of the
    literals of the active set. *)
Definition land_range (r : list Expr) : Expr := AND r.

(** Modelled from the spec: [std::sort], [std::unique] and the traversal
    of a [std::set], of the C++ library, which is not under src/.  Sorting
    by a strict total order has one result, computed here by insertion;
    [std::unique] erases an element that is equal to the one before it; a
    [std::set] is traversed in the order of its comparator, whatever the
    order in which its members were inserted. *)
Fixpoint sorted_insert (lt : Expr → Expr → bool) (x : Expr) (l : list Expr)
    : list Expr :=
  match l with
  | [] => [x]
  | y :: l' => if lt x y then x :: y :: l' else y :: sorted_insert lt x l'
  end.

Definition std_sort (lt : Expr → Expr → bool) (l : list Expr) : list Expr :=
  foldr (sorted_insert lt) [] l.

Fixpoint std_unique (l : list Expr) : list Expr :=
  match l with
  | [] => []
  | x :: l' =>
      match l' with
      | y :: _ => if Expr_eqb x y then std_unique l' else x :: std_unique l'
      | [] => [x]
      end
  end.

Definition std_set_elements (lt : Expr → Expr → bool) (s : gset Expr)
    : list Expr :=
  std_sort lt (elements s).

(** What a comparator of handles is expected to be: a strict total order. *)
Definition strict_total_order (lt : Expr → Expr → bool) : Prop :=
  (∀ x, lt x x = false) ∧
  (∀ x y z, lt x y = true → lt y z = true → lt x z = true) ∧
  (∀ x y, x ≠ y → lt x y = true ∨ lt y x = true).

Section Engine.
Context {ZModel : Type}.

(** The collaborators of the engine. *)
Record Externals : Type := {
  (** the SMT solver: [solve] and [getModel] after the assertions *)
  z3_solve : ZSolver;
  z3_getModel : list Expr → ZModel;
  (** [bmc_impl::unsat_core] on the auxiliary solver, in which the clauses
      of its argument are asserted at the call: the core, and the assertions
      that the call leaves in the solver *)
  unsat_core : list Expr → list Expr;
  unsat_core_solver : list Expr → list Expr;
  (** the expression kernel: the standard ordering [e1 < e2] between
      expression handles *)
  expr_lt : Expr → Expr → bool;
  (** the VC generator: the precise encoding, the control predicate of a
      block, the implicant of a model with the map from its literals to the
      control predicates, the symbolic stores of the cut points *)
  vc_side : list Expr;
  symb : BasicBlock → Expr;
  get_model_implicant : list Expr → ZModel → list Expr * gmap Expr Expr;
  cps_size : nat;
  states : list SymStore;
  (** the trace of basic blocks of a model *)
  trace_blocks : ZModel → list BasicBlock;
  (** the CFG and the abstract interpreter, with the command-line flag *)
  UseCrab : bool;
  cfg : CFG;
  path_analyze : list BasicBlock → bool * list statement_wrapper
}.

(** The state of the engine.  [m_smt_solver] is the sequence of the
    expressions asserted in the primary solver, [m_aux_smt_solver] the
    sequence of those asserted in the auxiliary solver. *)
Record Engine : Type := {
  m_side : list Expr;
  m_smt_solver : list Expr;
  m_aux_smt_solver : list Expr;
  m_blocking_clauses : gset Expr;
  m_active_bool_lits : list Expr;
  m_model : option ZModel;
  m_result : tribool
}.

Definition set_smt_solver (st : Engine) (ctx : list Expr) : Engine :=
  {| m_side := m_side st; m_smt_solver := ctx;
     m_aux_smt_solver := m_aux_smt_solver st;
     m_blocking_clauses := m_blocking_clauses st;
     m_active_bool_lits := m_active_bool_lits st;
     m_model := m_model st; m_result := m_result st |}.

Definition set_aux_smt_solver (st : Engine) (ctx : list Expr) : Engine :=
  {| m_side := m_side st; m_smt_solver := m_smt_solver st;
     m_aux_smt_solver := ctx;
     m_blocking_clauses := m_blocking_clauses st;
     m_active_bool_lits := m_active_bool_lits st;
     m_model := m_model st; m_result := m_result st |}.

Definition set_blocking_clauses (st : Engine) (B : gset Expr) : Engine :=
  {| m_side := m_side st; m_smt_solver := m_smt_solver st;
     m_aux_smt_solver := m_aux_smt_solver st;
     m_blocking_clauses := B;
     m_active_bool_lits := m_active_bool_lits st;
     m_model := m_model st; m_result := m_result st |}.

Definition set_active_bool_lits (st : Engine) (lits : list Expr) : Engine :=
  {| m_side := m_side st; m_smt_solver := m_smt_solver st;
     m_aux_smt_solver := m_aux_smt_solver st;
     m_blocking_clauses := m_blocking_clauses st;
     m_active_bool_lits := lits;
     m_model := m_model st; m_result := m_result st |}.

Definition set_model (st : Engine) (m : ZModel) : Engine :=
  {| m_side := m_side st; m_smt_solver := m_smt_solver st;
     m_aux_smt_solver := m_aux_smt_solver st;
     m_blocking_clauses := m_blocking_clauses st;
     m_active_bool_lits := m_active_bool_lits st;
     m_model := Some m; m_result := m_result st |}.

Definition set_result (st : Engine) (r : tribool) : Engine :=
  {| m_side := m_side st; m_smt_solver := m_smt_solver st;
     m_aux_smt_solver := m_aux_smt_solver st;
     m_blocking_clauses := m_blocking_clauses st;
     m_active_bool_lits := m_active_bool_lits st;
     m_model := m_model st; m_result := r |}.

(** The predicate of the edge from [src] to [dst], by [isCriticalEdge]. *)
Definition edge_predicate (ext : Externals) (src_BB dst_BB : BasicBlock) : Expr :=
  let src := symb ext src_BB in
  let dst := symb ext dst_BB in
  if isCriticalEdge (cfg ext) src_BB dst_BB
  then boolConst (TUPLE src dst)
  else AND [src; dst].

(** The body of the loop over the relevant statements in
    [path_encoding_and_solve_with_ai]: the literals that a statement adds to
    [active_bool_lits]. *)
Definition add_active_lits (ext : Externals) (s : statement_wrapper)
    (active_bool_lits : gset Expr) : active_lits :=
  match kind (m_s s) with
  | bin_op | int_cast | select | bool_bin_op | bool_assign_cst
  | arr_write | arr_read | arr_assume | arr_assign =>
      match get_basic_block (m_parent s) with
      | Some BB => lits_found ({[symb ext BB]} ∪ active_bool_lits)
      | None => lits_assert_failed
      end
  | assume | bool_assume =>
      match m_parent s with
      | parent_edge p_first p_second =>
          let src := symb ext p_first in
          let edge := edge_predicate ext p_first p_second in
          lits_found ({[edge]} ∪ ({[src]} ∪ active_bool_lits))
      | parent_block BB =>
          match kind (m_s s) with
          | bool_assume => lits_found ({[symb ext BB]} ∪ active_bool_lits)
          | _ => lits_assert_failed
          end
      end
  | assign | bool_assign_var =>
      match lhs_phi (m_s s) with
      | Some dst_BB =>
          let src_BB :=
            match m_parent s with
            | parent_block b => b
            | parent_edge p_first _ => p_first
            end in
          let src := symb ext src_BB in
          let edge := edge_predicate ext src_BB dst_BB in
          lits_found ({[edge]} ∪ ({[src]} ∪ active_bool_lits))
      | None => lits_unknown
      end
  | other_statement => lits_unknown
  end.

Fixpoint infer_active_lits (ext : Externals) (relevant_stmts : list statement_wrapper)
    (active_bool_lits : gset Expr) : active_lits :=
  match relevant_stmts with
  | [] => lits_found active_bool_lits
  | s :: rest =>
      match add_active_lits ext s active_bool_lits with
      | lits_found lits => infer_active_lits ext rest lits
      | r => r
      end
  end.

(** Customized ordering to ensure that non-tuple expressions come first than
    tuple expressions, otherwise standard ordering between Expr's, which is
    the order [handle_lt] of the handles. *)
Definition lessExpr (handle_lt : Expr → Expr → bool) (e1 e2 : Expr) : bool :=
  if negb (isTuple e1) && isTuple e2 then true
  else if isTuple e1 && negb (isTuple e2) then false
  else handle_lt e1 e2.

(** The traversal of a [std::set<Expr, lessExpr>]: in the order of
    [lessExpr] over the order of the handles. *)
Definition lessExpr_elements (handle_lt : Expr → Expr → bool)
    (active_bool_lits : gset Expr) : list Expr :=
  std_set_elements (lessExpr handle_lt) active_bool_lits.

(** Find the state where e is defined: the value of [e] in the first store
    that changes it, or for a tuple the constant of the values of its two
    elements in the first store that defines both. *)
Fixpoint eval_in_stores (stores : list SymStore) (e : Expr) : option Expr :=
  match stores with
  | [] => None
  | s :: rest =>
      let v := SymStore_eval s e in
      if negb (Expr_eqb v e) then Some v
      else
        match (if isTuple e then getTuple e else None) with
        | Some (t_first, t_second) =>
            if SymStore_isDefined s t_first && SymStore_isDefined s t_second
            then Some (boolConst (TUPLE (SymStore_eval s t_first)
                                        (SymStore_eval s t_second)))
            else eval_in_stores rest e
        | None => eval_in_stores rest e
        end
  end.

(** The loop that evaluates the active literals: the values are pushed at
    the back of [m_active_bool_lits]; the Boolean tells whether every
    literal was found. *)
Fixpoint eval_active_lits (stores : list SymStore) (lits : list Expr)
    (m_active_bool_lits : list Expr) : bool * list Expr :=
  match lits with
  | [] => (true, m_active_bool_lits)
  | e :: rest =>
      match eval_in_stores stores e with
      | Some v => eval_active_lits stores rest (m_active_bool_lits ++ [v])
      | None => (false, m_active_bool_lits)
      end
  end.

(** [PathBasedBmcEngine::path_encoding_and_solve_with_ai]: false iff the
    abstract interpretation of the path is bottom and the active literals
    were computed. *)
Definition path_encoding_and_solve_with_ai (ext : Externals) (st : Engine)
    (trace : list BasicBlock) : option (bool * Engine) :=
  let '(res, relevant_stmts) := path_analyze ext trace in
  if negb res then
    match infer_active_lits ext relevant_stmts ∅ with
    | lits_assert_failed => None
    | lits_unknown => Some (true, st)
    | lits_found active_bool_lits =>
        let stores := take (cps_size ext) (states ext) in
        let '(found, lits) :=
          eval_active_lits stores
            (lessExpr_elements (expr_lt ext) active_bool_lits) [] in
        if found then Some (res, set_active_bool_lits st lits)
        else Some (true, set_active_bool_lits st lits)
    end
  else Some (res, st).

(** [PathBasedBmcEngine::path_encoding_and_solve_with_smt]: the implicant
    is sorted by the order of the handles and its redundant literals are
    removed; the auxiliary solver is reset and the path formula is asserted
    in it; the strategy that computes the unsat core works in the auxiliary
    solver and leaves its own assertions there; the set of the active
    literals is a [std::set<Expr>], traversed in the order of the handles. *)
Definition path_encoding_and_solve_with_smt (ext : Externals) (st : Engine)
    (model : ZModel) : option (tribool * Engine) :=
  let '(implicant, active_bool_map) := get_model_implicant ext (m_side st) model in
  (* remove redundant literals *)
  let path_formula := std_unique (std_sort (expr_lt ext) implicant) in
  let st := set_aux_smt_solver st path_formula in
  let res := z3_solve ext (m_aux_smt_solver st) in
  match res with
  | tri_false =>
      let muc_method := MUC_ASSUMPTIONS in
      '(core, aux) ←
        match muc_method with
        | MUC_ASSUMPTIONS =>
            Some (unsat_core ext path_formula, unsat_core_solver ext path_formula)
        | MUC_NAIVE => naive_muc.run_solver (z3_solve ext) path_formula
        | MUC_BINARY_SEARCH =>
            binary_search_muc.run_solver (z3_solve ext) path_formula
        end;
      let st := set_aux_smt_solver st aux in
      let active_bool_set : gset Expr :=
        list_to_set (omap (λ e, active_bool_map !! e) core) in
      Some (res, set_active_bool_lits st
                   (std_set_elements (expr_lt ext) active_bool_set))
  | tri_true => Some (res, set_model st (z3_getModel ext (m_aux_smt_solver st)))
  | indeterminate => Some (res, st)
  end.

(** The blocking clause of an active set. *)
Definition blocking_clause (lits : list Expr) : Expr :=
  match lits with
  | [] => FALSE
  | _ => lneg (land_range lits)
  end.

(** [PathBasedBmcEngine::add_blocking_clauses]: the clause is asserted in
    the primary solver, then inserted in the set of blocking clauses; the
    result tells whether the insertion took place. *)
Definition add_blocking_clauses (st : Engine) : bool * Engine :=
  let bc := blocking_clause (m_active_bool_lits st) in
  let st := set_smt_solver st (m_smt_solver st ++ [bc]) in
  let res_second := bool_decide (bc ∉ m_blocking_clauses st) in
  (res_second, set_blocking_clauses st ({[bc]} ∪ m_blocking_clauses st)).

(** How a turn of the main loop ends. *)
Inductive turn : Type :=
| turn_continue (st : Engine)
| turn_return (r : tribool) (st : Engine).

(** The body of the main loop of [solve], once the abstract solver has
    found [model]. *)
Definition solve_body (ext : Externals) (st : Engine) (model : ZModel)
    : option turn :=
  '(ai_res, st) ←
    (if UseCrab ext
     then path_encoding_and_solve_with_ai ext st (trace_blocks ext model)
     else Some (true, st));
  if negb ai_res then
    let '(ok, st) := add_blocking_clauses st in
    if ok then Some (turn_continue st)
    else Some (turn_return indeterminate st)
  else
    '(res, st) ← path_encoding_and_solve_with_smt ext st model;
    if tribool_to_bool (tri_or (tri_eq res indeterminate) res)
    then Some (turn_return res st)
    else
      let '(ok, st) := add_blocking_clauses st in
      if ok then Some (turn_continue st)
      else Some (turn_return indeterminate st).

(** The main loop of [solve]; [fuel] bounds the number of turns. *)
Fixpoint solve_loop (ext : Externals) (fuel : nat) (st : Engine)
    : option (tribool * Engine) :=
  match fuel with
  | 0 => None
  | S fuel' =>
      let st := set_result st (z3_solve ext (m_smt_solver st)) in
      if tribool_to_bool (m_result st) then
        match solve_body ext st (z3_getModel ext (m_smt_solver st)) with
        | Some (turn_continue st') => solve_loop ext fuel' st'
        | Some (turn_return r st') => Some (r, st')
        | None => None
        end
      else Some (m_result st, st)
  end.

(** The state at the entry of the main loop, on an engine that was just
    built, with nothing asserted in the auxiliary solver: the precise
    encoding is computed, the primary solver is reset and the clauses of the
    Boolean abstraction are asserted in it. *)
Definition solve_init (ext : Externals) : option Engine :=
  abs_side ← bool_abstraction_vec (vc_side ext) [];
  Some {| m_side := vc_side ext; m_smt_solver := abs_side;
          m_aux_smt_solver := [];
          m_blocking_clauses := ∅; m_active_bool_lits := [];
          m_model := None; m_result := indeterminate |}.

(** [PathBasedBmcEngine::solve]. *)
Definition solve (ext : Externals) (fuel : nat) : option (tribool * Engine) :=
  st ← solve_init ext;
  solve_loop ext fuel st.

(** The states at the head of the main loop in a run of [solve]. *)
Inductive loop_head (ext : Externals) : Engine → Prop :=
| loop_head_init st :
    solve_init ext = Some st → loop_head ext st
| loop_head_next st st' :
    loop_head ext st →
    tribool_to_bool (z3_solve ext (m_smt_solver st)) = true →
    solve_body ext (set_result st (z3_solve ext (m_smt_solver st)))
      (z3_getModel ext (m_smt_solver st)) = Some (turn_continue st') →
    loop_head ext st'.

(** The refinement of a turn reports an infeasible path and leaves the
    engine in [st']: the abstract interpreter did, or it did not and the SMT
    refinement did. *)
Inductive refinement_unsat (ext : Externals) (st : Engine) (model : ZModel)
    (st' : Engine) : Prop :=
| unsat_by_ai :
    UseCrab ext = true →
    path_encoding_and_solve_with_ai ext st (trace_blocks ext model)
      = Some (false, st') →
    refinement_unsat ext st model st'
| unsat_by_smt ai_res st1 :
    (if UseCrab ext
     then path_encoding_and_solve_with_ai ext st (trace_blocks ext model)
     else Some (true, st)) = Some (ai_res, st1) →
    ai_res = true →
    path_encoding_and_solve_with_smt ext st1 model = Some (tri_false, st') →
    refinement_unsat ext st model st'.

(** The edge that a relevant statement stands for: the edge of an assume
    that lives on an edge, and for an assignment to a PHI node the edge from
    the block of the statement to the block of the PHI node. *)
Definition edge_of_statement (s : statement_wrapper)
    : option (BasicBlock * BasicBlock) :=
  match kind (m_s s), m_parent s, lhs_phi (m_s s) with
  | (assume | bool_assume), parent_edge src dst, _ => Some (src, dst)
  | (assign | bool_assign_var), parent_block src, Some dst => Some (src, dst)
  | (assign | bool_assign_var), parent_edge src _, Some dst => Some (src, dst)
  | _, _, _ => None
  end.

End Engine.

Arguments Externals : clear implicits.
Arguments Engine : clear implicits.

(** ** Collaborators for the examples *)

(** An order of the handles for the examples: the order of the codes of the
    expressions. *)
Definition encode_lt (x y : Expr) : bool :=
  bool_decide ((encode x < encode y)%positive).

(** A solver that refutes the contexts in which [FALSE] is asserted, and no
    other. *)
Definition false_solver : ZSolver :=
  λ l, if existsb isFALSE l then tri_false else tri_true.

(** A diamond with one more edge, from block 1 to block 3:
    0 -> 1, 0 -> 2, 1 -> 2, 1 -> 3, 2 -> 3. *)
Definition diamond : CFG :=
  {| succs := λ b, match b with 0 => [1; 2] | 1 => [2; 3] | 2 => [3] | _ => [] end;
     preds := λ b, match b with 1 => [0] | 2 => [0; 1] | 3 => [1; 2] | _ => [] end |}.

(** The control predicate of a block in the examples. *)
Definition bp (b : BasicBlock) : Expr := boolConst (THEORY "bb" [TERM (pretty b)]).

(** Collaborators whose refinement always reports an infeasible path: the
    implicant of every model is [FALSE], which [mapLit] says where it comes
    from. *)
Definition refuting_externals (mapLit : gmap Expr Expr) : Externals unit :=
  {| z3_solve := false_solver;
     z3_getModel := λ _, tt;
     unsat_core := λ f, f;
     unsat_core_solver := λ f, f;
     expr_lt := encode_lt;
     vc_side := [bp 0; IMPL (bp 0) (bp 1)];
     symb := bp;
     get_model_implicant := λ _ _, ([FALSE], mapLit);
     cps_size := 0;
     states := [];
     trace_blocks := λ _, [];
     UseCrab := false;
     cfg := diamond;
     path_analyze := λ _, (true, []) |}.

(** The engine at the head of the first turn of the main loop with these
    collaborators, and at the head of the second turn when the first one
    blocked the literals [lits]. *)
Definition first_head : Engine unit :=
  {| m_side := [bp 0; IMPL (bp 0) (bp 1)];
     m_smt_solver := [bp 0; OR [NEG (bp 0); bp 1]];
     m_aux_smt_solver := [];
     m_blocking_clauses := ∅;
     m_active_bool_lits := [];
     m_model := None;
     m_result := indeterminate |}.


(** ** Predicates of the further properties *)

(** The Boolean nodes of a formula are built with AND, OR and NEG alone,
    over the constants [TRUE] and [FALSE] and the atoms. *)
Fixpoint and_or_neg (e : Expr) {struct e} : bool :=
  match e with
  | AND args | OR args => forallb and_or_neg args
  | NEG a => and_or_neg a
  | XOR _ _ | IMPL _ _ | ITE _ _ _ | IFF _ _ => false
  | _ => true
  end.

(** The atoms of a Boolean skeleton: the Boolean constants and the
    equalities between Boolean literals. *)
Definition prop_atom (e : Expr) : bool :=
  isBoolConst e ||
  match e with
  | EQ a b => BA.is_bool_lit a && BA.is_bool_lit b
  | _ => false
  end.

(** The control predicate of a block as the VC generator makes it: a
    Boolean constant whose name is not a tuple. *)
Definition block_constant (e : Expr) : bool :=
  match e with
  | FAPP (FDECL name [BOOL_TY]) [] =>
      match name with
      | TUPLE _ _ => false
      | _ => true
      end
  | _ => false
  end.

(** A symbolic store for the examples: it renames the control predicate of
    a block to its incarnation at the cut point, and defines the Boolean
    constants. *)
Definition renaming_store : SymStore :=
  {| SymStore_eval := λ e,
       match e with
       | FAPP (FDECL (THEORY "bb" b) sig) [] => FAPP (FDECL (THEORY "bb_0" b) sig) []
       | _ => e
       end;
     SymStore_isDefined := isBoolConst |}.

(** Collaborators whose abstract interpreter refutes every path by an
    assume on the edge from block 1 to block 3 and an operation of block
    1. *)
Definition crab_externals : Externals unit :=
  {| z3_solve := false_solver;
     z3_getModel := λ _, tt;
     unsat_core := λ f, f;
     unsat_core_solver := λ f, f;
     expr_lt := encode_lt;
     vc_side := [bp 0; IMPL (bp 0) (bp 1)];
     symb := bp;
     get_model_implicant := λ _ _, ([FALSE], ∅);
     cps_size := 1;
     states := [renaming_store];
     trace_blocks := λ _, [0; 1; 3];
     UseCrab := true;
     cfg := diamond;
     path_analyze := λ _,
       (false,
        [ {| m_s := {| kind := assume; lhs_phi := None |};
             m_parent := parent_edge 1 3 |};
          {| m_s := {| kind := bin_op; lhs_phi := None |};
             m_parent := parent_block 1 |} ]) |}.




(** Collaborators whose refinement finds the first path feasible: the
    implicant of every model is the control predicate of the entry. *)
Definition feasible_externals : Externals unit :=
  {| z3_solve := false_solver;
     z3_getModel := λ _, tt;
     unsat_core := λ f, f;
     unsat_core_solver := λ f, f;
     expr_lt := encode_lt;
     vc_side := [bp 0; IMPL (bp 0) (bp 1)];
     symb := bp;
     get_model_implicant := λ _ _, ([bp 0; bp 0], ∅);
     cps_size := 0;
     states := [];
     trace_blocks := λ _, [];
     UseCrab := false;
     cfg := diamond;
     path_analyze := λ _, (true, []) |}.

(** What holds of the engine at every head of the main loop: the precise
    encoding is the one of the collaborators, no model is cached, and the
    primary solver holds the abstraction [abs_side] followed by the blocking
    clauses, of which none was asserted twice. *)
Definition engine_invariant {ZModel} (ext : Externals ZModel)
    (abs_side : list Expr) (st : Engine ZModel) : Prop :=
  m_side st = vc_side ext ∧
  m_model st = None ∧
  ∃ bcs, m_smt_solver st = abs_side ++ bcs ∧
         m_blocking_clauses st = list_to_set bcs ∧
         NoDup bcs.

(** Collaborators whose refinement refutes the path by two clauses of the
    theory: the solver refutes the contexts in which [x] is both 1 and 2,
    the implicant of every model holds a clause twice, and the unsat core is
    made of the clauses of the theory. *)
Definition x_is (n : string) : Expr := EQ (TERM "x") (TERM n).

Definition clash_solver : ZSolver :=
  λ l, if existsb (Expr_eqb (x_is "1")) l && existsb (Expr_eqb (x_is "2")) l
       then tri_false else tri_true.

Definition clash_externals : Externals unit :=
  {| z3_solve := clash_solver;
     z3_getModel := λ _, tt;
     unsat_core := List.filter (λ e, negb (isBoolConst e));
     unsat_core_solver := λ f, f;
     expr_lt := encode_lt;
     vc_side := [bp 0; IMPL (bp 0) (bp 1); IMPL (bp 0) (x_is "2");
                 IMPL (bp 1) (x_is "1")];
     symb := bp;
     get_model_implicant := λ _ _,
       ([x_is "2"; bp 0; x_is "1"; bp 0; bp 1],
        {[x_is "1" := bp 1; x_is "2" := bp 0]});
     cps_size := 0;
     states := [];
     trace_blocks := λ _, [];
     UseCrab := false;
     cfg := diamond;
     path_analyze := λ _, (true, []) |}.

(** * Properties *)

(** ** The pre-NNF rewrite and the negation normal form *)

Lemma visit_BS_AND r args :
  visit_BS r (AND args) = args' ← visit_BS_kids r args; r (AND args').
Proof.
  simpl. f_equal. induction args as [|k ks IH]; simpl; [reflexivity|].
  rewrite IH. reflexivity.
Qed.

Lemma visit_BS_OR r args :
  visit_BS r (OR args) = args' ← visit_BS_kids r args; r (OR args').
Proof.
  simpl. f_equal. induction args as [|k ks IH]; simpl; [reflexivity|].
  rewrite IH. reflexivity.
Qed.

Lemma PreNNF_eval M e e' : PreNNF e = Some e' → eval M e' = eval M e.
Proof.
  destruct e; simpl; intros [= <-]; try reflexivity; simpl;
    repeat match goal with |- context [eval M ?x] =>
      is_var x; destruct (eval M x) end; reflexivity.
Qed.

Lemma visit_BS_kids_eval M r l l' :
  Forall (λ e, ∀ e', visit_BS r e = Some e' → eval M e' = eval M e) l →
  visit_BS_kids r l = Some l' →
  map (eval M) l' = map (eval M) l.
Proof.
  intros H. revert l'. induction H as [|k ks Hk _ IH]; intros l'; simpl.
  - intros [= <-]. reflexivity.
  - destruct (visit_BS r k) as [k'|] eqn:Ek; [|discriminate].
    destruct (visit_BS_kids r ks) as [ks'|]; [|discriminate].
    intros [= <-]. simpl. rewrite (Hk k' eq_refl), (IH ks' eq_refl). reflexivity.
Qed.

Lemma forallb_map_eval M l :
  forallb (eval M) l = forallb id (map (eval M) l).
Proof. induction l; simpl; [|rewrite IHl]; reflexivity. Qed.

Lemma existsb_map_eval M l :
  existsb (eval M) l = existsb id (map (eval M) l).
Proof. induction l; simpl; [|rewrite IHl]; reflexivity. Qed.

(** The pre-NNF rewrite keeps the truth value of the formula. *)
Lemma pre_nnf_eval M e : ∀ e', pre_nnf e = Some e' → eval M e' = eval M e.
Proof.
  unfold pre_nnf.
  induction e using Expr_rose_ind; intros e';
    try (intros [= <-]; reflexivity).
  - rewrite visit_BS_AND.
    destruct (visit_BS_kids PreNNF args) as [args'|] eqn:E; [|discriminate].
    simpl. intros [= <-]. simpl.
    rewrite !forallb_map_eval. f_equal. eapply visit_BS_kids_eval; eauto.
  - rewrite visit_BS_OR.
    destruct (visit_BS_kids PreNNF args) as [args'|] eqn:E; [|discriminate].
    simpl. intros [= <-]. simpl.
    rewrite !existsb_map_eval. f_equal. eapply visit_BS_kids_eval; eauto.
  - simpl. destruct (visit_BS PreNNF e1), (visit_BS PreNNF e2); discriminate.
  - simpl. destruct (visit_BS PreNNF e) as [a'|]; [|discriminate].
    simpl. intros [= <-]. simpl. f_equal. auto.
  - simpl. destruct (visit_BS PreNNF e1) as [a'|]; [|discriminate].
    destruct (visit_BS PreNNF e2) as [b'|]; [|discriminate].
    simpl. intros [= <-]. simpl.
    rewrite (IHe1 a' eq_refl), (IHe2 b' eq_refl).
    destruct (eval M e1), (eval M e2); reflexivity.
  - simpl. destruct (visit_BS PreNNF e1) as [c'|]; [|discriminate].
    destruct (visit_BS PreNNF e2) as [a'|]; [|discriminate].
    destruct (visit_BS PreNNF e3) as [b'|]; [|discriminate].
    simpl. intros [= <-]. simpl.
    rewrite (IHe1 c' eq_refl), (IHe2 a' eq_refl), (IHe3 b' eq_refl).
    destruct (eval M e1), (eval M e2), (eval M e3); reflexivity.
  - simpl. destruct (visit_BS PreNNF e1) as [a'|]; [|discriminate].
    destruct (visit_BS PreNNF e2) as [b'|]; [|discriminate].
    simpl. intros [= <-]. simpl.
    rewrite (IHe1 a' eq_refl), (IHe2 b' eq_refl).
    destruct (eval M e1), (eval M e2); reflexivity.
Qed.

Lemma visit_BS_kids_total r l :
  Forall (λ e, is_Some (visit_BS r e)) l → is_Some (visit_BS_kids r l).
Proof.
  induction 1 as [|k ks [k' Hk] _ [ks' IH]]; simpl; [eauto|].
  rewrite Hk, IH. eauto.
Qed.

(** Without an [XOR] among its Boolean nodes a formula is rewritten. *)
Lemma pre_nnf_total e : has_XOR e = false → is_Some (pre_nnf e).
Proof.
  unfold pre_nnf.
  induction e using Expr_rose_ind; simpl has_XOR; intros HX;
    try (simpl; eauto; fail).
  - rewrite visit_BS_AND.
    destruct (visit_BS_kids_total PreNNF args) as [args' ->]; [|simpl; eauto].
    rewrite Forall_forall in *. intros x Hx. apply H; [assumption|].
    destruct (has_XOR x) eqn:E; [|reflexivity].
    rewrite <- HX. symmetry. apply existsb_exists. exists x.
    split; [apply list_elem_of_In|]; assumption.
  - rewrite visit_BS_OR.
    destruct (visit_BS_kids_total PreNNF args) as [args' ->]; [|simpl; eauto].
    rewrite Forall_forall in *. intros x Hx. apply H; [assumption|].
    destruct (has_XOR x) eqn:E; [|reflexivity].
    rewrite <- HX. symmetry. apply existsb_exists. exists x.
    split; [apply list_elem_of_In|]; assumption.
  - discriminate.
  - destruct (IHe HX) as [a' Ha]. simpl. rewrite Ha. simpl. eauto.
  - apply orb_false_iff in HX as [H1 H2].
    destruct (IHe1 H1) as [a' Ha], (IHe2 H2) as [b' Hb].
    simpl. rewrite Ha, Hb. simpl. eauto.
  - apply orb_false_iff in HX as [H12 H3]. apply orb_false_iff in H12 as [H1 H2].
    destruct (IHe1 H1) as [c' Hc], (IHe2 H2) as [a' Ha], (IHe3 H3) as [b' Hb].
    simpl. rewrite Hc, Ha, Hb. simpl. eauto.
  - apply orb_false_iff in HX as [H1 H2].
    destruct (IHe1 H1) as [a' Ha], (IHe2 H2) as [b' Hb].
    simpl. rewrite Ha, Hb. simpl. eauto.
Qed.

(** The negation normal form keeps the truth value of the formula. *)
Lemma nnf_pol_eval M e : ∀ neg, eval M (nnf_pol neg e) = xorb neg (eval M e).
Proof.
  induction e using Expr_rose_ind; intros neg;
    try (destruct neg; reflexivity).
  - destruct neg; simpl;
      (induction H as [|x xs Hx _ IH]; simpl; [reflexivity|]);
      rewrite Hx, IH; simpl;
      destruct (eval M x), (forallb (eval M) xs); reflexivity.
  - destruct neg; simpl;
      (induction H as [|x xs Hx _ IH]; simpl; [reflexivity|]);
      rewrite Hx, IH; simpl;
      destruct (eval M x), (existsb (eval M) xs); reflexivity.
  - simpl. rewrite IHe. destruct neg, (eval M e); reflexivity.
Qed.

Lemma nnf_eval M e : eval M (nnf e) = eval M e.
Proof. unfold nnf. rewrite nnf_pol_eval. reflexivity. Qed.

(** ** The skeleton extraction *)

Lemma BA_pos_lit e :
  BA.is_pos_bool_lit e = true → dagVisit BA.visit e = e.
Proof.
  intros H. destruct e; simpl; unfold BA.visit; rewrite ?H; try reflexivity;
    discriminate.
Qed.

Lemma BA_lit e : BA.is_bool_lit e = true → dagVisit BA.visit e = e.
Proof.
  unfold BA.is_bool_lit. intros H. apply orb_true_iff in H as [H|H].
  - apply BA_pos_lit, H.
  - destruct e; try discriminate. simpl in H.
    simpl. unfold BA.visit. simpl. rewrite H. f_equal. apply BA_pos_lit, H.
Qed.

Lemma BA_AND args :
  dagVisit BA.visit (AND args) = AND (map (dagVisit BA.visit) args).
Proof. reflexivity. Qed.

Lemma BA_OR args :
  dagVisit BA.visit (OR args) = OR (map (dagVisit BA.visit) args).
Proof. reflexivity. Qed.

Lemma dagVisit_unfold v e :
  dagVisit v e =
  match v e with
  | skipKids => e
  | changeTo e' => e'
  | doKids =>
      match e with
      | AND args => AND (map (dagVisit v) args)
      | OR args => OR (map (dagVisit v) args)
      | XOR a b => XOR (dagVisit v a) (dagVisit v b)
      | NEG a => NEG (dagVisit v a)
      | IMPL a b => IMPL (dagVisit v a) (dagVisit v b)
      | ITE c a b => ITE (dagVisit v c) (dagVisit v a) (dagVisit v b)
      | IFF a b => IFF (dagVisit v a) (dagVisit v b)
      | EQ a b => EQ (dagVisit v a) (dagVisit v b)
      | FAPP f args => FAPP (dagVisit v f) (map (dagVisit v) args)
      | FDECL n sig => FDECL (dagVisit v n) (map (dagVisit v) sig)
      | TUPLE a b => TUPLE (dagVisit v a) (dagVisit v b)
      | THEORY op args => THEORY op (map (dagVisit v) args)
      | TRUE | FALSE | BOOL_TY | TERM _ => e
      end
  end.
Proof. destruct e; reflexivity. Qed.

(** The visitor run by [dagVisit] computes the skeleton of the
    specification. *)
Lemma BA_skeleton_spec e : dagVisit BA.visit e = skeleton_spec e.
Proof.
  induction e using Expr_rose_ind; try reflexivity.
  - rewrite BA_AND. simpl. f_equal.
    induction H as [|x xs Hx _ IH]; simpl; [reflexivity|]. rewrite Hx, IH. reflexivity.
  - rewrite BA_OR. simpl. f_equal.
    induction H as [|x xs Hx _ IH]; simpl; [reflexivity|]. rewrite Hx, IH. reflexivity.
  - rewrite dagVisit_unfold. unfold BA.visit at 1. simpl.
    destruct (BA.is_pos_bool_lit e) eqn:E; [|reflexivity].
    f_equal. apply BA_pos_lit, E.
  - rewrite dagVisit_unfold. unfold BA.visit at 1. simpl.
    destruct (BA.is_bool_lit e1 && BA.is_bool_lit e2); [|reflexivity].
    rewrite IHe1, IHe2. reflexivity.
  - rewrite dagVisit_unfold. unfold BA.visit at 1. simpl skeleton_spec.
    destruct (BA.is_pos_bool_lit (FAPP e args)); reflexivity.
Qed.

(** The abstraction never fails on its own, and what it returns is a
    skeleton. *)
Lemma skeleton_spec_skeleton e : skeleton (skeleton_spec e) = true.
Proof.
  induction e using Expr_rose_ind; try reflexivity.
  - simpl. induction H as [|x xs Hx _ IH]; simpl; [reflexivity|].
    simpl in IH. rewrite Hx, IH. reflexivity.
  - simpl. induction H as [|x xs Hx _ IH]; simpl; [reflexivity|].
    simpl in IH. rewrite Hx, IH. reflexivity.
  - simpl. destruct (BA.is_pos_bool_lit e) eqn:E; simpl; [|reflexivity].
    exact E.
  - simpl. destruct (BA.is_bool_lit e1) eqn:E1; [|reflexivity].
    destruct (BA.is_bool_lit e2) eqn:E2; [|reflexivity].
    rewrite <- !BA_skeleton_spec, !BA_lit by assumption.
    simpl. rewrite E1, E2. reflexivity.
  - simpl skeleton_spec.
    destruct (BA.is_pos_bool_lit (FAPP e args)) eqn:E; [|reflexivity].
    unfold skeleton. rewrite E. reflexivity.
Qed.

Lemma skeleton_kids_In (args : list Expr) x :
  forallb skeleton args = true → x ∈ args → skeleton x = true.
Proof.
  intros H Hx. rewrite forallb_forall in H. apply H, list_elem_of_In, Hx.
Qed.

Lemma skeleton_fix e : skeleton e = true → skeleton_spec e = e.
Proof.
  induction e using Expr_rose_ind; try (simpl; discriminate); try reflexivity.
  - simpl. intros HS. f_equal.
    induction H as [|x xs Hx _ IH]; simpl; [reflexivity|].
    simpl in HS. apply andb_true_iff in HS as [H1 H2].
    rewrite Hx, IH by assumption. reflexivity.
  - simpl. intros HS. f_equal.
    induction H as [|x xs Hx _ IH]; simpl; [reflexivity|].
    simpl in HS. apply andb_true_iff in HS as [H1 H2].
    rewrite Hx, IH by assumption. reflexivity.
  - simpl. intros ->. reflexivity.
  - simpl. intros HS. rewrite HS.
    apply andb_true_iff in HS as [H1 H2].
    rewrite <- !BA_skeleton_spec, !BA_lit by assumption. reflexivity.
  - simpl skeleton_spec. unfold skeleton.
    destruct (BA.is_pos_bool_lit (FAPP e args)); [reflexivity|discriminate].
Qed.

Lemma visit_BS_kids_id r (l : list Expr) :
  Forall (λ e, visit_BS r e = Some e) l → visit_BS_kids r l = Some l.
Proof.
  induction 1 as [|k ks Hk _ IH]; simpl; [reflexivity|].
  rewrite Hk, IH. reflexivity.
Qed.

(** The pre-NNF rewrite leaves a skeleton as it is. *)
Lemma pre_nnf_skeleton e : skeleton e = true → pre_nnf e = Some e.
Proof.
  unfold pre_nnf.
  induction e using Expr_rose_ind; try (simpl; discriminate); try reflexivity.
  - simpl skeleton. intros HS. rewrite visit_BS_AND, visit_BS_kids_id; [reflexivity|].
    rewrite Forall_forall in *. intros x Hx.
    apply H; [assumption|]. eapply skeleton_kids_In; eassumption.
  - simpl skeleton. intros HS. rewrite visit_BS_OR, visit_BS_kids_id; [reflexivity|].
    rewrite Forall_forall in *. intros x Hx.
    apply H; [assumption|]. eapply skeleton_kids_In; eassumption.
  - simpl. intros HS. destruct e; try discriminate; try reflexivity.
Qed.

(** The negation normal form leaves a skeleton as it is. *)
Lemma nnf_skeleton e : skeleton e = true → nnf e = e.
Proof.
  unfold nnf.
  induction e using Expr_rose_ind; try (simpl; discriminate); try reflexivity.
  - simpl. intros HS. f_equal.
    induction H as [|x xs Hx _ IH]; simpl; [reflexivity|].
    simpl in HS. apply andb_true_iff in HS as [H1 H2].
    rewrite Hx, IH by assumption. reflexivity.
  - simpl. intros HS. f_equal.
    induction H as [|x xs Hx _ IH]; simpl; [reflexivity|].
    simpl in HS. apply andb_true_iff in HS as [H1 H2].
    rewrite Hx, IH by assumption. reflexivity.
  - simpl. intros HS. destruct e; try discriminate; try reflexivity.
Qed.

Lemma lit_skeleton e : BA.is_bool_lit e = true → skeleton e = true.
Proof.
  unfold BA.is_bool_lit. intros H. apply orb_true_iff in H as [H|H].
  - destruct e; simpl in *; try discriminate; try reflexivity.
    unfold skeleton. rewrite H. reflexivity.
  - destruct e; try discriminate. simpl in *. exact H.
Qed.

(** The abstraction of a skeleton is the skeleton. *)
Lemma bool_abstraction_skeleton e :
  skeleton e = true → bool_abstraction e = Some e.
Proof.
  intros HS. unfold bool_abstraction. rewrite (pre_nnf_skeleton e HS). simpl.
  rewrite (nnf_skeleton e HS), BA_skeleton_spec, (skeleton_fix e HS). reflexivity.
Qed.

(** ** Soundness of the abstraction *)

(** Whatever the formula, the skeleton is implied by it: a subterm is
    replaced by [TRUE] only below AND and OR. *)
Lemma skeleton_spec_sound M e :
  eval M e = true → eval M (skeleton_spec e) = true.
Proof.
  induction e using Expr_rose_ind; try (intros; reflexivity); try (intros; assumption).
  - simpl. induction H as [|x xs Hx _ IH]; simpl; [reflexivity|].
    intros HA. apply andb_true_iff in HA as [H1 H2].
    rewrite Hx, IH by assumption. reflexivity.
  - simpl. induction H as [|x xs Hx _ IH]; simpl; [discriminate|].
    intros HA. apply orb_true_iff in HA as [H1|H2].
    + rewrite Hx by assumption. reflexivity.
    + rewrite IH by assumption. apply orb_true_r.
  - simpl skeleton_spec. destruct (BA.is_pos_bool_lit e); [auto|reflexivity].
  - simpl skeleton_spec.
    destruct (BA.is_bool_lit e1) eqn:E1; [|reflexivity].
    destruct (BA.is_bool_lit e2) eqn:E2; [|reflexivity].
    rewrite <- !BA_skeleton_spec, !BA_lit by assumption. auto.
  - simpl skeleton_spec.
    destruct (BA.is_pos_bool_lit (FAPP e args)); [auto|reflexivity].
Qed.

Lemma bool_abstraction_eval M e b :
  bool_abstraction e = Some b → eval M e = true → eval M b = true.
Proof.
  unfold bool_abstraction.
  destruct (pre_nnf e) as [e1|] eqn:E; [|discriminate]. simpl.
  intros [= <-] He. rewrite BA_skeleton_spec.
  apply skeleton_spec_sound. rewrite nnf_eval, (pre_nnf_eval M e e1 E). exact He.
Qed.

Lemma bool_abstraction_total e :
  has_XOR e = false → is_Some (bool_abstraction e).
Proof.
  intros H. unfold bool_abstraction.
  destruct (pre_nnf_total e H) as [e1 ->]. simpl. eauto.
Qed.

(** The loop that pushes the abstractions at the back of [abs_side]. *)
Lemma bool_abstraction_push_mapM side : ∀ abs_side,
  bool_abstraction_push side abs_side =
  bs ← mapM bool_abstraction side; Some (abs_side ++ bs).
Proof.
  induction side as [|e side IH]; intros abs_side; simpl.
  - rewrite app_nil_r. reflexivity.
  - destruct (bool_abstraction e) as [b|]; simpl; [|reflexivity].
    rewrite IH. destruct (mapM bool_abstraction side) as [bs|]; simpl; [|reflexivity].
    rewrite <- app_assoc. reflexivity.
Qed.

Lemma mapM_bool_abstraction_total side :
  existsb has_XOR side = false → is_Some (mapM bool_abstraction side).
Proof.
  induction side as [|e side IH]; simpl; [eauto|].
  intros H. apply orb_false_iff in H as [H1 H2].
  destruct (bool_abstraction_total e H1) as [b ->].
  destruct (IH H2) as [bs ->]. simpl. eauto.
Qed.

Lemma mapM_bool_abstraction_sat M side : ∀ bs,
  mapM bool_abstraction side = Some bs → sat M side = true → sat M bs = true.
Proof.
  unfold sat. induction side as [|e side IH]; simpl; intros bs.
  - intros [= <-]. reflexivity.
  - destruct (bool_abstraction e) as [b|] eqn:Eb; [|discriminate].
    destruct (mapM bool_abstraction side) as [bs'|]; [|discriminate].
    simpl. intros [= <-] H. apply andb_true_iff in H as [H1 H2]. simpl.
    rewrite (bool_abstraction_eval M e b Eb H1), (IH bs' eq_refl H2). reflexivity.
Qed.

Lemma sat_filter M (f : Expr → bool) l :
  sat M l = true → sat M (List.filter f l) = true.
Proof.
  unfold sat. induction l as [|x l IH]; simpl; [reflexivity|].
  intros H. apply andb_true_iff in H as [H1 H2].
  destruct (f x); simpl; [rewrite H1|]; auto.
Qed.

(** C1. Abstraction soundness: for a side formula [m_side] with no XOR among
    its Boolean nodes, the abstraction [abs_side] is produced, and every
    model that satisfies all the clauses of [m_side] satisfies all the
    clauses of [abs_side]. *)
Theorem bool_abstraction_sound (m_side : list Expr) :
  existsb has_XOR m_side = false →
  ∃ abs_side,
    bool_abstraction_vec m_side [] = Some abs_side ∧
    ∀ M, sat M m_side = true → sat M abs_side = true.
Proof.
  intros HX. unfold bool_abstraction_vec.
  rewrite bool_abstraction_push_mapM.
  destruct (mapM_bool_abstraction_total m_side HX) as [bs Hbs].
  rewrite Hbs. simpl. eexists. split; [reflexivity|].
  intros M HM. apply sat_filter. eapply mapM_bool_abstraction_sat; eassumption.
Qed.

Lemma bool_abstraction_sound_witness :
  let p := boolConst (TERM "bb0") in
  let q := boolConst (TERM "bb1") in
  let x_is_1 := EQ (TERM "x") (TERM "1") in
  ∃ abs_side,
    bool_abstraction_vec [p; IMPL p q; IMPL q x_is_1] [] = Some abs_side ∧
    ∀ M, sat M [p; IMPL p q; IMPL q x_is_1] = true → sat M abs_side = true.
Proof.
  intros p q x_is_1.
  exact (bool_abstraction_sound [p; IMPL p q; IMPL q x_is_1] eq_refl).
Defined.

(** C5. Skeleton extraction: the abstraction of an input clause is the
    skeleton, as the specification words it, of the clause after the pre-NNF
    rewrite and the negation normal form: positive Boolean literals and
    negations of positive Boolean literals are kept, AND, OR and equalities
    between Boolean literals are rebuilt from the skeletons of their
    children, and every other subterm is replaced by [TRUE]; this is what
    the visitor computes on every expression.  The abstraction of a side
    formula is the sequence of these skeletons pushed behind [abs_side], in
    the order of the side formula, without the clauses that are [TRUE]. *)
Theorem skeleton_extraction (c c1 : Expr) (m_side cs abs_side : list Expr) :
  pre_nnf c = Some c1 →
  mapM pre_nnf m_side = Some cs →
  bool_abstraction c = Some (skeleton_spec (nnf c1)) ∧
  (∀ e, dagVisit BA.visit e = skeleton_spec e) ∧
  mapM bool_abstraction m_side = Some (map (λ c1, skeleton_spec (nnf c1)) cs) ∧
  bool_abstraction_vec m_side abs_side =
    Some (List.filter (λ e, negb (isTRUE e))
            (abs_side ++ map (λ c1, skeleton_spec (nnf c1)) cs)).
Proof.
  intros Hc Hcs.
  assert (Hclause : ∀ x x1, pre_nnf x = Some x1 →
                            bool_abstraction x = Some (skeleton_spec (nnf x1))).
  { intros x x1 Hx. unfold bool_abstraction. rewrite Hx. simpl.
    rewrite BA_skeleton_spec. reflexivity. }
  assert (Hall : mapM bool_abstraction m_side
                 = Some (map (λ c1, skeleton_spec (nnf c1)) cs)).
  { clear Hc. revert cs Hcs. induction m_side as [|x side IH]; intros cs; simpl.
    - intros [= <-]. reflexivity.
    - destruct (pre_nnf x) as [x1|] eqn:Hx; [|discriminate]. simpl.
      destruct (mapM pre_nnf side) as [cs'|]; [|discriminate]. simpl.
      intros [= <-]. rewrite (Hclause x x1 Hx), (IH cs' eq_refl). reflexivity. }
  split; [apply Hclause, Hc|]. split; [exact BA_skeleton_spec|].
  split; [exact Hall|].
  unfold bool_abstraction_vec. rewrite bool_abstraction_push_mapM, Hall.
  reflexivity.
Qed.

Lemma skeleton_extraction_witness :
  let p := boolConst (TERM "p") in
  let q := boolConst (TERM "q") in
  let x_lt_y := THEORY "bvult" [TERM "x"; TERM "y"] in
  let c := IMPL p (AND [q; NEG x_lt_y; EQ p (NEG q); EQ (TERM "x") (TERM "y")]) in
  let m_side := [p; NEG (OR [x_lt_y; NEG x_lt_y]); c] in
  bool_abstraction c = Some (OR [NEG p; AND [q; TRUE; EQ p (NEG q); TRUE]]) ∧
  (∀ e, dagVisit BA.visit e = skeleton_spec e) ∧
  mapM bool_abstraction m_side
    = Some [p; AND [TRUE; TRUE]; OR [NEG p; AND [q; TRUE; EQ p (NEG q); TRUE]]] ∧
  bool_abstraction_vec m_side [TRUE; q]
    = Some [q; p; AND [TRUE; TRUE]; OR [NEG p; AND [q; TRUE; EQ p (NEG q); TRUE]]].
Proof.
  intros p q x_lt_y c m_side.
  exact (skeleton_extraction c _ m_side _ [TRUE; q] eq_refl eq_refl).
Defined.

(** ** Rejection of XOR *)

Lemma visit_BS_kids_None r (l : list Expr) :
  Exists (λ e, visit_BS r e = None) l → visit_BS_kids r l = None.
Proof.
  induction 1 as [k ks Hk|k ks _ IH]; simpl.
  - rewrite Hk. reflexivity.
  - rewrite IH. destruct (visit_BS r k); reflexivity.
Qed.

Lemma pre_nnf_XOR e : has_XOR e = true → pre_nnf e = None.
Proof.
  unfold pre_nnf.
  induction e using Expr_rose_ind; simpl has_XOR; try discriminate; intros HX.
  - rewrite visit_BS_AND, visit_BS_kids_None; [reflexivity|].
    apply existsb_exists in HX as (x & Hx & HX).
    apply Exists_exists. exists x. split; [apply list_elem_of_In, Hx|].
    rewrite Forall_forall in H. apply H; [apply list_elem_of_In, Hx|exact HX].
  - rewrite visit_BS_OR, visit_BS_kids_None; [reflexivity|].
    apply existsb_exists in HX as (x & Hx & HX).
    apply Exists_exists. exists x. split; [apply list_elem_of_In, Hx|].
    rewrite Forall_forall in H. apply H; [apply list_elem_of_In, Hx|exact HX].
  - simpl. destruct (visit_BS PreNNF e1), (visit_BS PreNNF e2); reflexivity.
  - simpl. rewrite (IHe HX). reflexivity.
  - simpl. apply orb_true_iff in HX as [HX|HX].
    + rewrite (IHe1 HX). reflexivity.
    + rewrite (IHe2 HX). destruct (visit_BS PreNNF e1); reflexivity.
  - simpl. apply orb_true_iff in HX as [HX|HX]; [apply orb_true_iff in HX as [HX|HX]|].
    + rewrite (IHe1 HX). reflexivity.
    + rewrite (IHe2 HX). destruct (visit_BS PreNNF e1); reflexivity.
    + rewrite (IHe3 HX).
      destruct (visit_BS PreNNF e1), (visit_BS PreNNF e2); reflexivity.
  - simpl. apply orb_true_iff in HX as [HX|HX].
    + rewrite (IHe1 HX). reflexivity.
    + rewrite (IHe2 HX). destruct (visit_BS PreNNF e1); reflexivity.
Qed.

Lemma bool_abstraction_XOR e : has_XOR e = true → bool_abstraction e = None.
Proof. intros H. unfold bool_abstraction. rewrite (pre_nnf_XOR e H). reflexivity. Qed.

(** C6. XOR rejection: when a clause given to the Boolean abstraction has an
    XOR among its Boolean nodes, the nodes that are reached from the root
    through Boolean operators, the assertion of the pre-NNF rewrite fails:
    neither the clause nor the side formula gets an abstraction. *)
Theorem XOR_rejected (m_side abs_side : list Expr) (e : Expr) :
  e ∈ m_side → has_XOR e = true →
  bool_abstraction e = None ∧ bool_abstraction_vec m_side abs_side = None.
Proof.
  intros Hin HX. split; [apply bool_abstraction_XOR, HX|].
  unfold bool_abstraction_vec. rewrite bool_abstraction_push_mapM.
  replace (mapM bool_abstraction m_side) with (@None (list Expr)); [reflexivity|].
  symmetry. induction Hin as [e l|e y l _ IH]; simpl.
  - rewrite (bool_abstraction_XOR e HX). reflexivity.
  - rewrite IH by assumption. destruct (bool_abstraction y); reflexivity.
Qed.

Lemma XOR_rejected_witness :
  let p := boolConst (TERM "p") in
  let q := boolConst (TERM "q") in
  bool_abstraction (IMPL p (XOR p q)) = None ∧
  bool_abstraction_vec [p; IMPL p (XOR p q)] [] = None.
Proof.
  intros p q.
  apply (XOR_rejected [p; IMPL p (XOR p q)] [] (IMPL p (XOR p q))).
  - apply list_elem_of_In. simpl. right. left. reflexivity.
  - reflexivity.
Defined.

(** C6, as stated, fails: an [XOR] below an equality is not among the
    Boolean nodes that the pre-NNF rewrite visits.  The clause contains an
    XOR operator, no assertion fails, and the clause is abstracted like any
    other theory term. *)
Lemma XOR_below_equality_counterexample :
  let p := boolConst (TERM "p") in
  let q := boolConst (TERM "q") in
  let e := EQ (XOR p q) p in
  contains_XOR e = true ∧
  has_XOR e = false ∧
  bool_abstraction e = Some TRUE ∧
  bool_abstraction_vec [q; e] [] = Some [q].
Proof. repeat split; reflexivity. Qed.

(** ** Idempotence of the abstraction *)

(** C9. Idempotence: for an expression with no XOR among its Boolean nodes
    the abstraction is produced and abstracting it again gives the same
    expression; a Boolean literal is its own abstraction. *)
Theorem bool_abstraction_idempotent (x : Expr) :
  has_XOR x = false →
  (∃ y, bool_abstraction x = Some y ∧ bool_abstraction y = Some y) ∧
  (BA.is_bool_lit x = true → bool_abstraction x = Some x).
Proof.
  intros HX. split.
  - destruct (bool_abstraction_total x HX) as [y Hy]. exists y. split; [exact Hy|].
    apply bool_abstraction_skeleton.
    unfold bool_abstraction in Hy. destruct (pre_nnf x) as [x1|]; [|discriminate].
    simpl in Hy. injection Hy as <-.
    rewrite BA_skeleton_spec. apply skeleton_spec_skeleton.
  - intros HL. apply bool_abstraction_skeleton, lit_skeleton, HL.
Qed.

Lemma bool_abstraction_idempotent_witness :
  let p := boolConst (TERM "p") in
  let x := IFF p (THEORY "bvult" [TERM "x"; TERM "y"]) in
  (∃ y, bool_abstraction x = Some y ∧ bool_abstraction y = Some y) ∧
  (BA.is_bool_lit x = true → bool_abstraction x = Some x).
Proof.
  intros p x. exact (bool_abstraction_idempotent x eq_refl).
Defined.

(** ** The naive minimal unsat core *)

Lemma rotate_back_snoc mid (back : Expr) :
  rotate_back (mid ++ [back]) = back :: mid.
Proof. unfold rotate_back. rewrite last_snoc, removelast_last. reflexivity. Qed.

Lemma rotate_back_Permutation rest : rotate_back rest ≡ₚ rest.
Proof.
  induction rest as [|back mid _] using rev_ind; [reflexivity|].
  rewrite rotate_back_snoc. apply Permutation_cons_append.
Qed.

(** The loop on [out] and [i] is the loop on the clauses before [i] and the
    clauses from [i] on. *)
Lemma run_loop_split m_solver asm fuel : ∀ kept todo,
  naive_muc.run_loop m_solver asm fuel (kept ++ todo) (length kept) =
  split_loop m_solver asm fuel kept todo.
Proof.
  induction fuel as [|fuel IH]; intros kept [|saved rest]; simpl;
    rewrite ?app_nil_r, ?Nat.ltb_irrefl; try reflexivity.
  - rewrite length_app. simpl.
    destruct (Nat.ltb_spec (length kept) (length kept + S (length rest))); [reflexivity|lia].
  - rewrite length_app. simpl.
    destruct (Nat.ltb_spec (length kept) (length kept + S (length rest))); [|lia].
    rewrite list_lookup_middle by reflexivity.
    unfold naive_muc.check.
    induction rest as [|back mid _] using rev_ind.
    + rewrite last_snoc. change (rotate_back []) with (@nil Expr).
      rewrite list_insert_id by (apply list_lookup_middle; reflexivity).
      rewrite removelast_last, app_nil_r.
      destruct (m_solver (asm ++ kept)).
      * rewrite list_insert_id by (apply list_lookup_middle; reflexivity).
        pose proof (IH (kept ++ [saved]) []) as E.
        rewrite app_nil_r, length_app, Nat.add_1_r in E. exact E.
      * pose proof (IH kept []) as E. rewrite app_nil_r in E. exact E.
      * reflexivity.
    + rewrite rotate_back_snoc.
      replace (kept ++ saved :: mid ++ [back]) with ((kept ++ saved :: mid) ++ [back])
        by (rewrite <- app_assoc; reflexivity).
      rewrite last_snoc.
      rewrite <- (Nat.add_0_r (length kept)), <- app_assoc. simpl.
      rewrite insert_app_r. simpl.
      replace (kept ++ back :: mid ++ [back]) with ((kept ++ back :: mid) ++ [back])
        by (rewrite <- app_assoc; reflexivity).
      rewrite removelast_last.
      destruct (m_solver (asm ++ kept ++ back :: mid)).
      * rewrite <- app_assoc. simpl. rewrite insert_app_r. simpl.
        pose proof (IH (kept ++ [saved]) (mid ++ [back])) as E.
        rewrite <- app_assoc, length_app, Nat.add_1_r in E. simpl in E.
        rewrite Nat.add_0_r. exact E.
      * rewrite Nat.add_0_r. apply (IH kept (back :: mid)).
      * reflexivity.
Qed.

Section MUC.
Context {Interp : Type}.
Variable holds : Interp → Expr → Prop.
Variable m_solver : ZSolver.

(** The solver decides, and its answers are right. *)
Hypothesis solver_true : ∀ l, m_solver l = tri_true → satisfiable holds l.
Hypothesis solver_false : ∀ l, m_solver l = tri_false → ¬ satisfiable holds l.
Hypothesis solver_decides : ∀ l, m_solver l ≠ indeterminate.

(** Inclusions between sequences of clauses built with [++] and [::]. *)
Ltac list_incl :=
  let e := fresh "e" in
  intros e;
  repeat first
    [ rewrite elem_of_app | rewrite elem_of_cons | rewrite elem_of_nil
    | rewrite rotate_back_Permutation ];
  tauto.

Lemma satisfiable_incl (l l' : list Expr) :
  l ⊆ l' → satisfiable holds l' → satisfiable holds l.
Proof. intros Hi [m Hm]. exists m. intros e He. apply Hm, Hi, He. Qed.

Lemma snoc_split_inv (kept : list Expr) saved d1 x d2 :
  kept ++ [saved] = d1 ++ x :: d2 →
  (kept = d1 ∧ saved = x ∧ d2 = []) ∨
  (∃ d2', d2 = d2' ++ [saved] ∧ kept = d1 ++ x :: d2').
Proof.
  induction d2 as [|y d2' _] using rev_ind; intros E.
  - apply app_inj_tail in E as [-> ->]. left. auto.
  - right. exists d2'.
    replace (d1 ++ x :: d2' ++ [y]) with ((d1 ++ x :: d2') ++ [y]) in E
      by (rewrite <- app_assoc; reflexivity).
    apply app_inj_tail in E as [-> ->]. auto.
Qed.

(** The loop returns: the solver decides every call, and the fuel is the
    number of the clauses still to test. *)
Lemma split_loop_returns asm : ∀ fuel kept todo,
  length todo ≤ fuel →
  ∃ C, split_loop m_solver asm fuel kept todo = Some C ∧ C ⊆+ kept ++ todo.
Proof.
  induction fuel as [|fuel IH]; intros kept [|saved rest] Hlen; simpl in *;
    try lia.
  - exists kept. rewrite app_nil_r. auto.
  - exists kept. rewrite app_nil_r. auto.
  - destruct (m_solver (asm ++ kept ++ rotate_back rest)) eqn:E.
    + destruct (IH (kept ++ [saved]) rest) as (C & HC & Hsub); [lia|].
      exists C. split; [exact HC|]. rewrite <- app_assoc in Hsub. exact Hsub.
    + destruct (IH kept (rotate_back rest)) as (C & HC & Hsub).
      { rewrite rotate_back_Permutation. lia. }
      exists C. split; [exact HC|]. etrans; [exact Hsub|].
      apply submseteq_skips_l. rewrite rotate_back_Permutation.
      apply submseteq_cons. reflexivity.
    + destruct (solver_decides _ E).
Qed.

(** What the loop keeps: the clauses are unsatisfiable together, and become
    satisfiable once any clause that was tested and kept is taken out. *)
Lemma split_loop_core asm : ∀ fuel kept todo C,
  split_loop m_solver asm fuel kept todo = Some C →
  ¬ satisfiable holds (asm ++ kept ++ todo) →
  (∀ d1 x d2, kept = d1 ++ x :: d2 →
     satisfiable holds (asm ++ d1 ++ d2 ++ todo)) →
  ¬ satisfiable holds (asm ++ C) ∧
  (∀ d1 x d2, C = d1 ++ x :: d2 → satisfiable holds (asm ++ d1 ++ d2)).
Proof.
  induction fuel as [|fuel IH]; intros kept [|saved rest] C; simpl;
    try discriminate.
  - intros [= <-] HU HM. split; [rewrite app_nil_r in HU; exact HU|].
    intros d1 x d2 E. specialize (HM d1 x d2 E). rewrite app_nil_r in HM. exact HM.
  - intros [= <-] HU HM. split; [rewrite app_nil_r in HU; exact HU|].
    intros d1 x d2 E. specialize (HM d1 x d2 E). rewrite app_nil_r in HM. exact HM.
  - destruct (m_solver (asm ++ kept ++ rotate_back rest)) eqn:E; [| |discriminate].
    + intros HC HU HM. apply (IH (kept ++ [saved]) rest C HC).
      * rewrite <- app_assoc. exact HU.
      * intros d1 x d2 Hd. apply snoc_split_inv in Hd as [(-> & -> & ->)|(d2' & -> & ->)].
        -- apply solver_true in E. revert E. apply satisfiable_incl.
           list_incl.
        -- specialize (HM d1 x d2' eq_refl). revert HM. apply satisfiable_incl.
           list_incl.
    + intros HC HU HM. apply (IH kept (rotate_back rest) C HC).
      * apply solver_false, E.
      * intros d1 x d2 Hd. specialize (HM d1 x d2 Hd). revert HM.
        apply satisfiable_incl.
        list_incl.
Qed.

(** The contract of [naive_muc::run] under assumptions. *)
Lemma naive_run_with_core F asm :
  ¬ satisfiable holds (asm ++ F) →
  ∃ C, naive_muc.run_with m_solver F asm [] = Some C ∧
       C ⊆+ F ∧
       ¬ satisfiable holds (asm ++ C) ∧
       (∀ d1 x d2, C = d1 ++ x :: d2 → satisfiable holds (asm ++ d1 ++ d2)).
Proof.
  intros HU. unfold naive_muc.run_with, naive_muc.check.
  destruct (m_solver (asm ++ F)) eqn:E;
    [destruct (HU (solver_true _ E)) | | destruct (solver_decides _ E)].
  simpl tribool_to_bool. cbv iota. simpl app.
  pose proof (run_loop_split m_solver asm (length F) [] F) as Eloop.
  simpl in Eloop. rewrite Eloop. clear Eloop.
  destruct (split_loop_returns asm (length F) [] F) as (C & HC & Hsub); [lia|].
  exists C. split; [exact HC|]. split; [exact Hsub|].
  apply (split_loop_core asm (length F) [] F C HC HU).
  intros d1 x d2 Hd. destruct d1; discriminate.
Qed.

Lemma without_incl c (d1 d2 : list Expr) : without c (d1 ++ c :: d2) ⊆ d1 ++ d2.
Proof.
  intros x Hx. apply list_elem_of_In, filter_In in Hx as [Hx Hne].
  apply list_elem_of_In in Hx. apply negb_true_iff, Expr_eqb_neq in Hne.
  revert Hx. rewrite !elem_of_app, elem_of_cons. tauto.
Qed.

Lemma positional_minimal_core F C :
  C ⊆+ F →
  ¬ satisfiable holds C →
  (∀ d1 x d2, C = d1 ++ x :: d2 → satisfiable holds (d1 ++ d2)) →
  minimal_core holds F C.
Proof.
  intros Hsub HU HM. split; [|split; [exact HU|]].
  - intros x Hx. eapply elem_of_submseteq; eassumption.
  - intros c Hc. apply list_elem_of_split in Hc as (d1 & d2 & ->).
    eapply satisfiable_incl; [apply without_incl|]. eapply HM. reflexivity.
Qed.

Lemma unsatisfiable_incl (l l' : list Expr) :
  l ⊆ l' → ¬ satisfiable holds l → ¬ satisfiable holds l'.
Proof. intros Hi HU HS. apply HU. eapply satisfiable_incl; eassumption. Qed.

Lemma submseteq_incl (l k : list Expr) : l ⊆+ k → l ⊆ k.
Proof. intros H x Hx. eapply elem_of_submseteq; eassumption. Qed.

(** The contract of [binary_search_muc::run_with_assumptions]: called with
    satisfiable assumptions that hold the clauses already in [core], on a
    range that is unsatisfiable under them, it pushes a minimal core of the
    range under the assumptions. *)
Lemma run_with_assumptions_core : ∀ fuel f asm core,
  length f < fuel →
  ¬ satisfiable holds (asm ++ f) →
  satisfiable holds asm →
  core ⊆ asm →
  ∃ C, binary_search_muc.run_with_assumptions m_solver fuel f asm core
         = Some (core ++ C) ∧
       C ⊆+ f ∧
       ¬ satisfiable holds (asm ++ C) ∧
       (∀ d1 x d2, C = d1 ++ x :: d2 → satisfiable holds (asm ++ d1 ++ d2)).
Proof.
  induction fuel as [|fuel IH]; intros f asm core Hlen HU HS Hcore; [lia|].
  cbn [binary_search_muc.run_with_assumptions].
  unfold binary_search_muc.check_with_assumptions.
  destruct (m_solver (asm ++ f)) eqn:E;
    [destruct (HU (solver_true _ E)) | | destruct (solver_decides _ E)].
  cbn [tribool_to_bool].
  destruct (length f <=? binary_search_muc.threshold) eqn:Et.
  - destruct (length f =? 0) eqn:E0; [|destruct (length f =? 1) eqn:E1].
    + apply Nat.eqb_eq in E0. destruct f; [|discriminate].
      exists []. rewrite app_nil_r. split; [reflexivity|]. split; [reflexivity|].
      split; [exact HU|]. intros [|] ? ?; discriminate.
    + apply Nat.eqb_eq in E1. destruct f as [|x [|]]; try discriminate.
      exists [x]. split; [reflexivity|]. split; [reflexivity|]. split; [exact HU|].
      intros [|? [|]] y d2 [=]; subst. rewrite !app_nil_r. exact HS.
    + destruct (naive_run_with_core f asm HU) as (C & HC & Hsub & HUC & HM).
      exists C. rewrite HC. simpl. auto.
  - apply Nat.leb_gt in Et. unfold binary_search_muc.threshold in Et.
    set (A := take (length f `div` 2) f) in *.
    set (B := drop (length f `div` 2) f) in *.
    assert (HAB : A ++ B = f) by apply take_drop.
    assert (Hhalf : length f `div` 2 < length f)
      by (apply Nat.div_lt; lia).
    assert (HlA : length A < fuel) by (unfold A; rewrite length_take; lia).
    assert (HlB : length B < fuel).
    { unfold B. rewrite length_drop.
      assert (0 < length f `div` 2) by (apply Nat.div_str_pos; lia). lia. }
    destruct (m_solver (asm ++ A)) eqn:EA; [| |destruct (solver_decides _ EA)].
    + destruct (m_solver (asm ++ B)) eqn:EB; [| |destruct (solver_decides _ EB)].
      * destruct (IH A (asm ++ B) core HlA) as (CA & HCA & HsA & HUA & HMA).
        { eapply unsatisfiable_incl; [|exact HU]. rewrite <- HAB. list_incl. }
        { apply solver_true, EB. }
        { intros e He. apply elem_of_app. left. apply Hcore, He. }
        rewrite HCA. cbn [mbind option_bind].
        pose proof (submseteq_incl _ _ HsA) as HiA.
        destruct (IH B (asm ++ core ++ CA) (core ++ CA) HlB)
          as (CB & HCB & HsB & HUB & HMB).
        { eapply unsatisfiable_incl; [|exact HUA]. list_incl. }
        { apply solver_true in EA. revert EA. apply satisfiable_incl.
          intros e. rewrite !elem_of_app. intros [He|[He|He]]; auto. }
        { intros e He. apply elem_of_app. right. exact He. }
        pose proof (submseteq_incl _ _ HsB) as HiB.
        exists (CA ++ CB). rewrite HCB, <- app_assoc. split; [reflexivity|].
        split; [rewrite <- HAB; apply submseteq_app; assumption|].
        split.
        -- eapply unsatisfiable_incl; [|exact HUB].
           intros e. rewrite !elem_of_app. intros [[He|[He|He]]|He]; auto.
        -- intros d1 x d2 Hd.
           apply app_eq_inv in Hd as [(k & -> & Hk)|(k & -> & ->)].
           ++ destruct k as [|y k]; simpl in Hk.
              ** subst CB. specialize (HMB [] x d2 eq_refl).
                 revert HMB. apply satisfiable_incl. list_incl.
              ** injection Hk as -> ->.
                 specialize (HMA d1 y k). rewrite <- app_assoc in HMA.
                 specialize (HMA eq_refl).
                 revert HMA. apply satisfiable_incl.
                 intros e. rewrite !elem_of_app. intros [He|[He|[He|He]]]; auto.
           ++ specialize (HMB k x d2 eq_refl).
              revert HMB. apply satisfiable_incl. list_incl.
      * destruct (IH B asm core HlB (solver_false _ EB) HS Hcore)
          as (C & HC & Hsub & HUC & HM).
        exists C. split; [exact HC|]. split; [|auto].
        etrans; [exact Hsub|]. apply sublist_submseteq. unfold B. apply sublist_drop.
    + destruct (IH A asm core HlA (solver_false _ EA) HS Hcore)
        as (C & HC & Hsub & HUC & HM).
      exists C. split; [exact HC|]. split; [|auto].
      etrans; [exact Hsub|]. apply sublist_submseteq. unfold A. apply sublist_take.
Qed.

(** C3. MUC minimality: when the clauses of [F] are unsatisfiable and the
    solver decides every call, the naive strategy and the binary search
    strategy each return a core made of clauses of [F] that is unsatisfiable
    and becomes satisfiable once any one of its clauses is taken out. *)
Theorem muc_minimal (m0 : Interp) (F : list Expr) :
  ¬ satisfiable holds F →
  (∃ C, naive_muc.run m_solver F = Some C ∧ minimal_core holds F C) ∧
  (∃ C, binary_search_muc.run m_solver F = Some C ∧ minimal_core holds F C).
Proof.
  intros HU. split.
  - destruct (naive_run_with_core F [] HU) as (C & HC & Hsub & HUC & HM).
    exists C. split; [exact HC|]. apply positional_minimal_core; assumption.
  - destruct (run_with_assumptions_core (S (length F)) F [] []) as (C & HC & Hsub & HUC & HM).
    + lia.
    + exact HU.
    + exists m0. intros e He. apply elem_of_nil in He. destruct He.
    + intros e He. exact He.
    + exists C. split; [exact HC|]. apply positional_minimal_core; assumption.
Qed.

(** C7, amended. The core of the naive strategy is made of clauses that
    survive from [F], each as often at most as in [F]: it is a rearrangement
    of a subsequence of [F]. *)
Theorem naive_muc_core_rearranged (F : list Expr) :
  m_solver F = tri_false →
  ∃ C S, naive_muc.run m_solver F = Some C ∧ C ≡ₚ S ∧ S `sublist_of` F.
Proof.
  intros HF. unfold naive_muc.run, naive_muc.run_with, naive_muc.check.
  simpl app. rewrite HF. cbn [tribool_to_bool].
  pose proof (run_loop_split m_solver [] (length F) [] F) as Eloop.
  simpl in Eloop. rewrite Eloop. clear Eloop.
  destruct (split_loop_returns [] (length F) [] F) as (C & HC & Hsub); [lia|].
  simpl in Hsub. apply submseteq_sublist_r in Hsub as (S & HP & HS).
  exists C, S. auto.
Qed.

End MUC.

(** *** The solver of the examples *)

Lemma const_solver_true l :
  const_solver l = tri_true → satisfiable const_holds l.
Proof.
  unfold const_solver, sat.
  destruct (forallb (eval (λ _, true)) l) eqn:Et; simpl.
  - intros _. exists true. intros e He.
    rewrite forallb_forall in Et. apply Et, list_elem_of_In, He.
  - destruct (forallb (eval (λ _, false)) l) eqn:Ef; [|discriminate].
    intros _. exists false. intros e He.
    rewrite forallb_forall in Ef. apply Ef, list_elem_of_In, He.
Qed.

Lemma const_solver_false l :
  const_solver l = tri_false → ¬ satisfiable const_holds l.
Proof.
  unfold const_solver, sat. intros H [m Hm].
  assert (forallb (eval (λ _, m)) l = true) as Hall.
  { apply forallb_forall. intros e He. apply Hm, list_elem_of_In, He. }
  destruct m; rewrite Hall in H; simpl in H;
    [|destruct (forallb (eval (λ _, true)) l)]; discriminate.
Qed.

Lemma const_solver_decides l : const_solver l ≠ indeterminate.
Proof.
  unfold const_solver.
  destruct (sat (λ _, true) l || sat (λ _, false) l); discriminate.
Qed.

Lemma muc_minimal_witness :
  let p := boolConst (TERM "bb1") in
  let F := [TRUE; p; TRUE; TRUE; NEG p; TRUE; TRUE; TRUE; TRUE; TRUE; TRUE;
            NEG p; TRUE] in
  (∃ C, naive_muc.run const_solver F = Some C ∧ minimal_core const_holds F C) ∧
  (∃ C, binary_search_muc.run const_solver F = Some C ∧
        minimal_core const_holds F C).
Proof.
  intros p F.
  apply (muc_minimal const_holds const_solver
           const_solver_true const_solver_false const_solver_decides true F).
  apply const_solver_false. reflexivity.
Defined.

Lemma naive_muc_core_rearranged_witness :
  let p := boolConst (TERM "bb1") in
  ∃ C S, naive_muc.run const_solver [TRUE; p; NEG p] = Some C ∧
         C ≡ₚ S ∧ S `sublist_of` [TRUE; p; NEG p].
Proof.
  intros p.
  exact (naive_muc_core_rearranged const_solver const_solver_decides
           [TRUE; p; NEG p] eq_refl).
Defined.

(** C7, as stated, fails: on the clauses [TRUE; p; NEG p] the solver refutes
    the whole, the first clause is discarded and the last one takes its
    place, so the core is [NEG p; p], where the two surviving clauses come
    in the opposite order. *)
Lemma muc_order_counterexample :
  let p := boolConst (TERM "bb1") in
  let F := [TRUE; p; NEG p] in
  const_solver F = tri_false ∧
  naive_muc.run const_solver F = Some [NEG p; p] ∧
  ¬ [NEG p; p] `sublist_of` F.
Proof.
  intros p F. split; [reflexivity|]. split; [reflexivity|].
  intros H. unfold F, p in H.
  repeat match goal with
  | H : _ `sublist_of` _ |- _ => inversion H; clear H; subst
  end.
Qed.

(** ** Critical edges and the active literals of the abstract interpreter *)

Lemma isCriticalEdge_spec (g : CFG) (src dst : BasicBlock) :
  isCriticalEdge g src dst = true ↔
  (∃ s, s ∈ succs g src ∧ s ≠ dst) ∧ (∃ p, p ∈ preds g dst ∧ p ≠ src).
Proof.
  unfold isCriticalEdge. rewrite andb_true_iff, !existsb_exists.
  split; intros [(s & Hs & Hne) (p & Hp & Hne')]; split.
  - exists s. split; [apply list_elem_of_In, Hs|].
    apply negb_true_iff, Nat.eqb_neq in Hne. exact Hne.
  - exists p. split; [apply list_elem_of_In, Hp|].
    apply negb_true_iff, Nat.eqb_neq in Hne'. exact Hne'.
  - exists s. split; [apply list_elem_of_In, Hs|].
    apply negb_true_iff, Nat.eqb_neq. exact Hne.
  - exists p. split; [apply list_elem_of_In, Hp|].
    apply negb_true_iff, Nat.eqb_neq. exact Hne'.
Qed.

Section EngineProperties.
Context {ZModel : Type}.
Variable ext : Externals ZModel.

(** C4. Edge predicate construction: for a relevant statement that stands
    for the CFG edge from [src] to [dst] (an assume on the edge, or an
    assignment to a PHI node), the edge is classified critical exactly when
    [src] has a successor other than [dst] and [dst] has a predecessor other
    than [src]; the edge predicate is the Boolean constant named by the
    tuple of the two control predicates when the edge is critical and their
    conjunction otherwise; the control predicate of [src] and the edge
    predicate are added to the active set. *)
Theorem edge_predicate_construction (s : statement_wrapper)
    (active_bool_lits : gset Expr) (src dst : BasicBlock) :
  edge_of_statement s = Some (src, dst) →
  (isCriticalEdge (cfg ext) src dst = true ↔
     (∃ s', s' ∈ succs (cfg ext) src ∧ s' ≠ dst) ∧
     (∃ p, p ∈ preds (cfg ext) dst ∧ p ≠ src)) ∧
  edge_predicate ext src dst =
    (if isCriticalEdge (cfg ext) src dst
     then boolConst (TUPLE (symb ext src) (symb ext dst))
     else AND [symb ext src; symb ext dst]) ∧
  ∃ lits,
    add_active_lits ext s active_bool_lits = lits_found lits ∧
    lits = {[edge_predicate ext src dst]} ∪ ({[symb ext src]} ∪ active_bool_lits) ∧
    symb ext src ∈ lits ∧
    edge_predicate ext src dst ∈ lits.
Proof.
  intros Hs. split; [apply isCriticalEdge_spec|]. split; [reflexivity|].
  exists ({[edge_predicate ext src dst]} ∪ ({[symb ext src]} ∪ active_bool_lits)).
  split; [|split; [reflexivity|split; set_solver]].
  unfold edge_of_statement in Hs. unfold add_active_lits.
  destruct s as [[k phi] par]; simpl in *.
  destruct k, par, phi; simpl in *; try discriminate;
    injection Hs as -> ->; reflexivity.
Qed.

(** ** Blocking clauses and the main loop *)

Lemma add_blocking_clauses_spec (st : Engine ZModel) :
  let bc := blocking_clause (m_active_bool_lits st) in
  ∃ st',
    add_blocking_clauses st = (bool_decide (bc ∉ m_blocking_clauses st), st') ∧
    m_smt_solver st' = m_smt_solver st ++ [bc] ∧
    m_blocking_clauses st' = {[bc]} ∪ m_blocking_clauses st.
Proof. intros bc. eexists. split; [reflexivity|]. split; reflexivity. Qed.

(** The refinements leave the primary solver and the blocking clauses as
    they are. *)
Lemma path_encoding_and_solve_with_ai_frame st trace res st' :
  path_encoding_and_solve_with_ai ext st trace = Some (res, st') →
  m_smt_solver st' = m_smt_solver st ∧
  m_blocking_clauses st' = m_blocking_clauses st.
Proof.
  unfold path_encoding_and_solve_with_ai.
  destruct (path_analyze ext trace) as [r stmts].
  destruct r; simpl; [intros [= <- <-]; auto|].
  destruct (infer_active_lits ext stmts ∅); try discriminate;
    [|intros [= <- <-]; auto].
  destruct (eval_active_lits _ _ _) as [[|] lits]; intros [= <- <-]; auto.
Qed.

Lemma path_encoding_and_solve_with_smt_frame st model res st' :
  path_encoding_and_solve_with_smt ext st model = Some (res, st') →
  m_smt_solver st' = m_smt_solver st ∧
  m_blocking_clauses st' = m_blocking_clauses st.
Proof.
  unfold path_encoding_and_solve_with_smt.
  destruct (get_model_implicant ext (m_side st) model) as [implicant amap].
  destruct (z3_solve ext _); simpl; intros [= <- <-]; auto.
Qed.

Lemma refinement_unsat_frame st model st' :
  refinement_unsat ext st model st' →
  m_smt_solver st' = m_smt_solver st ∧
  m_blocking_clauses st' = m_blocking_clauses st.
Proof.
  intros [Hc Hai|ai_res st1 Hai -> Hsmt].
  - eapply path_encoding_and_solve_with_ai_frame, Hai.
  - apply path_encoding_and_solve_with_smt_frame in Hsmt as [-> ->].
    destruct (UseCrab ext).
    + eapply path_encoding_and_solve_with_ai_frame, Hai.
    + injection Hai as <-. auto.
Qed.

(** A turn whose refinement reports an infeasible path goes through
    [add_blocking_clauses]. *)
Lemma solve_body_unsat st model st1 :
  refinement_unsat ext st model st1 →
  solve_body ext st model =
  (let '(ok, st2) := add_blocking_clauses st1 in
   if ok then Some (turn_continue st2) else Some (turn_return indeterminate st2)).
Proof.
  intros [Hc Hai|ai_res st0 Hai -> Hsmt]; unfold solve_body.
  - rewrite Hc, Hai. reflexivity.
  - rewrite Hai. cbn [mbind option_bind negb]. rewrite Hsmt. reflexivity.
Qed.

(** A turn that continues the loop went through [add_blocking_clauses],
    from a state with the same primary solver and blocking clauses. *)
Lemma solve_body_continue st model st' :
  solve_body ext st model = Some (turn_continue st') →
  ∃ st1,
    m_smt_solver st1 = m_smt_solver st ∧
    m_blocking_clauses st1 = m_blocking_clauses st ∧
    add_blocking_clauses st1 = (true, st').
Proof.
  unfold solve_body.
  destruct (if UseCrab ext then _ else _) as [[ai_res st0]|] eqn:Hai; [|discriminate].
  assert (m_smt_solver st0 = m_smt_solver st ∧
          m_blocking_clauses st0 = m_blocking_clauses st) as [Hs0 HB0].
  { destruct (UseCrab ext).
    - eapply path_encoding_and_solve_with_ai_frame, Hai.
    - injection Hai as _ <-. auto. }
  cbn [mbind option_bind].
  destruct ai_res; cbn [negb].
  - destruct (path_encoding_and_solve_with_smt ext st0 model) as [[res st1]|] eqn:Hsmt;
      [|discriminate].
    apply path_encoding_and_solve_with_smt_frame in Hsmt as [Hs1 HB1].
    cbn [mbind option_bind].
    destruct (tribool_to_bool _); [discriminate|].
    destruct (add_blocking_clauses st1) as [[|] st2] eqn:Habc; [|discriminate].
    intros [= <-]. exists st1. rewrite Hs1, HB1. auto.
  - destruct (add_blocking_clauses st0) as [[|] st2] eqn:Habc; [|discriminate].
    intros [= <-]. exists st0. auto.
Qed.

(** Every blocking clause has been asserted in the primary solver. *)
Lemma loop_head_asserted st :
  loop_head ext st →
  ∀ c, c ∈ m_blocking_clauses st → c ∈ m_smt_solver st.
Proof.
  induction 1 as [st Hinit|st st' _ IH _ Hbody].
  - unfold solve_init in Hinit.
    destruct (bool_abstraction_vec (vc_side ext) []); [|discriminate].
    injection Hinit as <-. simpl. set_solver.
  - apply solve_body_continue in Hbody as (st1 & Hs & HB & Habc).
    simpl in Hs, HB.
    destruct (add_blocking_clauses_spec st1) as (st2 & Habc' & Hs2 & HB2).
    rewrite Habc in Habc'. injection Habc' as _ <-.
    intros c. rewrite HB2, Hs2, Hs, HB, elem_of_union, elem_of_singleton, elem_of_app,
      list_elem_of_singleton.
    intros [->|Hc]; auto.
Qed.

Lemma solve_loop_turn fuel st0 :
  z3_solve ext (m_smt_solver st0) = tri_true →
  solve_loop ext (S fuel) st0 =
  match solve_body ext (set_result st0 tri_true)
          (z3_getModel ext (m_smt_solver st0)) with
  | Some (turn_continue st') => solve_loop ext fuel st'
  | Some (turn_return r st') => Some (r, st')
  | None => None
  end.
Proof. intros H. simpl. rewrite H. reflexivity. Qed.

(** C2. Non-progress detection and monotone progress: in a turn of the main
    loop whose refinement reports an infeasible path, the blocking clause is
    asserted in the primary solver and inserted in the set of blocking
    clauses; when the clause was already in the set, [solve] returns
    indeterminate at once; otherwise the loop goes on with a set that has
    one clause more.  Whatever the refinement, a turn that continues the loop
    leaves a set with one clause more. *)
Theorem blocking_clause_progress (fuel : nat) (st0 st1 : Engine ZModel) :
  z3_solve ext (m_smt_solver st0) = tri_true →
  refinement_unsat ext (set_result st0 tri_true)
    (z3_getModel ext (m_smt_solver st0)) st1 →
  let bc := blocking_clause (m_active_bool_lits st1) in
  (∃ st2,
     m_smt_solver st2 = m_smt_solver st0 ++ [bc] ∧
     m_blocking_clauses st2 = {[bc]} ∪ m_blocking_clauses st0 ∧
     (bc ∈ m_blocking_clauses st0 →
        solve_loop ext (S fuel) st0 = Some (indeterminate, st2)) ∧
     (bc ∉ m_blocking_clauses st0 →
        solve_loop ext (S fuel) st0 = solve_loop ext fuel st2 ∧
        size (m_blocking_clauses st2) = S (size (m_blocking_clauses st0)))) ∧
  (∀ st',
     solve_body ext (set_result st0 tri_true)
       (z3_getModel ext (m_smt_solver st0)) = Some (turn_continue st') →
     size (m_blocking_clauses st') = S (size (m_blocking_clauses st0))).
Proof.
  intros Hsat Href bc. split.
  - destruct (refinement_unsat_frame _ _ _ Href) as [Hs HB]. simpl in Hs, HB.
    destruct (add_blocking_clauses_spec st1) as (st2 & Habc & Hs2 & HB2).
    fold bc in Habc, Hs2, HB2. rewrite Hs in Hs2. rewrite HB in HB2, Habc.
    exists st2. split; [exact Hs2|]. split; [exact HB2|].
    rewrite (solve_loop_turn fuel st0 Hsat), (solve_body_unsat _ _ _ Href), Habc.
    split; intros Hbc.
    + rewrite bool_decide_eq_false_2 by (intros Hn; apply Hn, Hbc). reflexivity.
    + rewrite bool_decide_eq_true_2 by exact Hbc. split; [reflexivity|].
      rewrite HB2, size_union, size_singleton; [reflexivity|].
      apply disjoint_singleton_l, Hbc.
  - intros st' Hbody.
    apply solve_body_continue in Hbody as (st & Hs & HB & Habc). simpl in Hs, HB.
    destruct (add_blocking_clauses_spec st) as (st2 & Habc' & Hs2 & HB2).
    rewrite Habc in Habc'. injection Habc' as Hdec <-.
    symmetry in Hdec. apply bool_decide_eq_true_1 in Hdec.
    rewrite HB2, size_union, size_singleton, HB; [reflexivity|].
    apply disjoint_singleton_l, Hdec.
Qed.

(** C8. Empty active set: when the refinement of a turn reports an
    infeasible path with an empty active set, [add_blocking_clauses] asserts
    [FALSE] in the primary solver and the loop goes on; a solver that
    refutes a context in which [FALSE] is asserted then answers false, and
    [solve] returns false: the problem is reported unsatisfiable. *)
Theorem empty_active_set_unsat (fuel : nat) (st0 st1 : Engine ZModel) :
  (∀ l, FALSE ∈ l → z3_solve ext l = tri_false) →
  loop_head ext st0 →
  z3_solve ext (m_smt_solver st0) = tri_true →
  refinement_unsat ext (set_result st0 tri_true)
    (z3_getModel ext (m_smt_solver st0)) st1 →
  m_active_bool_lits st1 = [] →
  ∃ st2,
    add_blocking_clauses st1 = (true, st2) ∧
    m_smt_solver st2 = m_smt_solver st0 ++ [FALSE] ∧
    solve_loop ext (S (S fuel)) st0 = Some (tri_false, set_result st2 tri_false).
Proof.
  intros Hfalse Hhead Hsat Href Hlits.
  destruct (refinement_unsat_frame _ _ _ Href) as [Hs HB]. simpl in Hs, HB.
  destruct (add_blocking_clauses_spec st1) as (st2 & Habc & Hs2 & HB2).
  rewrite Hlits in Habc, Hs2, HB2. simpl blocking_clause in *.
  assert (FALSE ∉ m_blocking_clauses st1) as Hnew.
  { rewrite HB. intros Hin. apply (loop_head_asserted st0 Hhead) in Hin.
    rewrite (Hfalse _ Hin) in Hsat. discriminate. }
  rewrite bool_decide_eq_true_2 in Habc by exact Hnew.
  rewrite Hs in Hs2.
  exists st2. split; [exact Habc|]. split; [exact Hs2|].
  rewrite (solve_loop_turn (S fuel) st0 Hsat), (solve_body_unsat _ _ _ Href), Habc.
  simpl. rewrite Hs2, Hfalse; [reflexivity|].
  apply elem_of_app. right. apply list_elem_of_singleton. reflexivity.
Qed.


End EngineProperties.

(** *** The theorems on the collaborators of the examples *)

Lemma edge_predicate_construction_witness :
  let ext := refuting_externals ∅ in
  let s := {| m_s := {| kind := assume; lhs_phi := None |};
              m_parent := parent_edge 1 3 |} in
  (isCriticalEdge (cfg ext) 1 3 = true ↔
     (∃ s', s' ∈ succs (cfg ext) 1 ∧ s' ≠ 3) ∧
     (∃ p, p ∈ preds (cfg ext) 3 ∧ p ≠ 1)) ∧
  edge_predicate ext 1 3 =
    (if isCriticalEdge (cfg ext) 1 3
     then boolConst (TUPLE (symb ext 1) (symb ext 3))
     else AND [symb ext 1; symb ext 3]) ∧
  ∃ lits,
    add_active_lits ext s ∅ = lits_found lits ∧
    lits = {[edge_predicate ext 1 3]} ∪ ({[symb ext 1]} ∪ ∅) ∧
    symb ext 1 ∈ lits ∧
    edge_predicate ext 1 3 ∈ lits.
Proof.
  intros ext s.
  exact (edge_predicate_construction ext s ∅ 1 3 eq_refl).
Defined.

Lemma first_head_refinement_unsat (mapLit : gmap Expr Expr) lits :
  std_set_elements encode_lt (list_to_set (omap (λ e, mapLit !! e) [FALSE])) = lits →
  refinement_unsat (refuting_externals mapLit) (set_result first_head tri_true) tt
    (set_active_bool_lits
       (set_aux_smt_solver (set_result first_head tri_true) [FALSE]) lits).
Proof.
  intros <-. eapply unsat_by_smt; reflexivity.
Defined.



Lemma blocking_clause_progress_witness :
  let ext := refuting_externals {[FALSE := bp 1]} in
  let st1 := set_active_bool_lits
               (set_aux_smt_solver (set_result first_head tri_true) [FALSE]) [bp 1] in
  let bc := blocking_clause (m_active_bool_lits st1) in
  (∃ st2,
     m_smt_solver st2 = m_smt_solver first_head ++ [bc] ∧
     m_blocking_clauses st2 = {[bc]} ∪ m_blocking_clauses first_head ∧
     (bc ∈ m_blocking_clauses first_head →
        solve_loop ext 3 first_head = Some (indeterminate, st2)) ∧
     (bc ∉ m_blocking_clauses first_head →
        solve_loop ext 3 first_head = solve_loop ext 2 st2 ∧
        size (m_blocking_clauses st2) = S (size (m_blocking_clauses first_head)))) ∧
  (∀ st',
     solve_body ext (set_result first_head tri_true)
       (z3_getModel ext (m_smt_solver first_head)) = Some (turn_continue st') →
     size (m_blocking_clauses st') = S (size (m_blocking_clauses first_head))).
Proof.
  intros ext st1.
  apply (blocking_clause_progress ext 2 first_head st1).
  - reflexivity.
  - apply first_head_refinement_unsat. vm_compute. reflexivity.
Defined.

Lemma empty_active_set_unsat_witness :
  let ext := refuting_externals ∅ in
  let st1 := set_active_bool_lits
               (set_aux_smt_solver (set_result first_head tri_true) [FALSE]) [] in
  ∃ st2,
    add_blocking_clauses st1 = (true, st2) ∧
    m_smt_solver st2 = m_smt_solver first_head ++ [FALSE] ∧
    solve_loop ext 2 first_head = Some (tri_false, set_result st2 tri_false).
Proof.
  intros ext st1.
  apply (empty_active_set_unsat ext 0 first_head st1).
  - intros l Hl. unfold ext, refuting_externals, z3_solve, false_solver.
    replace (existsb isFALSE l) with true; [reflexivity|].
    symmetry. apply existsb_exists. exists FALSE.
    split; [apply list_elem_of_In, Hl|reflexivity].
  - apply loop_head_init. vm_compute. reflexivity.
  - reflexivity.
  - apply first_head_refinement_unsat. vm_compute. reflexivity.
  - reflexivity.
Defined.


(** ** Runs on concrete inputs *)

(** The abstraction of a side formula: the arithmetic of the last clause is
    replaced by [TRUE], the implications are rewritten. *)
Example bool_abstraction_vec_run :
  let x_is n := EQ (TERM "x") (TERM n) in
  bool_abstraction_vec
    [bp 0; IMPL (bp 0) (bp 1); IMPL (bp 1) (AND [x_is "1"; x_is "2"]); x_is "3"] []
  = Some [bp 0; OR [NEG (bp 0); bp 1]; OR [NEG (bp 1); AND [TRUE; TRUE]]].
Proof. reflexivity. Qed.

(** A negation is pushed inward before the abstraction. *)
Example bool_abstraction_run :
  bool_abstraction (NEG (IMPL (bp 0) (OR [bp 1; THEORY "bvult" [TERM "x"; TERM "y"]])))
  = Some (AND [bp 0; AND [NEG (bp 1); TRUE]]).
Proof. reflexivity. Qed.

(** The naive strategy moves the last clause in the place of a discarded
    one. *)
Example naive_muc_run :
  naive_muc.run const_solver [TRUE; bp 0; TRUE; NEG (bp 0); TRUE]
  = Some [NEG (bp 0); bp 0].
Proof. reflexivity. Qed.

(** Above the threshold the binary search splits the clauses. *)
Example binary_search_muc_run :
  binary_search_muc.run const_solver
    [TRUE; TRUE; TRUE; TRUE; TRUE; TRUE; TRUE; TRUE; bp 0; TRUE; TRUE; NEG (bp 0); TRUE]
  = Some [NEG (bp 0); bp 0].
Proof. vm_compute. reflexivity. Qed.

(** A refinement that blocks the same literal twice: the second insertion
    fails and [solve] returns indeterminate, with the clause asserted
    twice. *)
Example solve_same_blocking_clause_again :
  (λ r, (r.1, m_smt_solver r.2)) <$> solve (refuting_externals {[FALSE := bp 1]}) 3
  = Some (indeterminate,
          [bp 0; OR [NEG (bp 0); bp 1]; NEG (AND [bp 1]); NEG (AND [bp 1])]).
Proof. vm_compute. reflexivity. Qed.

(** A refinement with no active literal: [FALSE] is asserted and [solve]
    returns false. *)
Example solve_empty_active_set :
  (λ r, (r.1, m_smt_solver r.2)) <$> solve (refuting_externals ∅) 3
  = Some (tri_false, [bp 0; OR [NEG (bp 0); bp 1]; FALSE]).
Proof. vm_compute. reflexivity. Qed.

(** * Further properties *)

(** ** The passes of the Boolean abstraction *)

Lemma and_or_neg_kids r (l l' : list Expr) :
  Forall (λ e, ∀ e', visit_BS r e = Some e' → and_or_neg e' = true) l →
  visit_BS_kids r l = Some l' → forallb and_or_neg l' = true.
Proof.
  intros H. revert l'. induction H as [|k ks Hk _ IH]; intros l'; simpl.
  - intros [= <-]. reflexivity.
  - destruct (visit_BS r k) as [k'|] eqn:Ek; [|discriminate].
    destruct (visit_BS_kids r ks) as [ks'|]; [|discriminate].
    intros [= <-]. simpl. rewrite (Hk k' eq_refl), (IH ks' eq_refl). reflexivity.
Qed.

Lemma pre_nnf_and_or_neg e : ∀ e', pre_nnf e = Some e' → and_or_neg e' = true.
Proof.
  unfold pre_nnf.
  induction e using Expr_rose_ind; intros e';
    try (intros [= <-]; reflexivity).
  - rewrite visit_BS_AND.
    destruct (visit_BS_kids PreNNF args) as [args'|] eqn:E; [|discriminate].
    simpl. intros [= <-]. simpl. eapply and_or_neg_kids; eassumption.
  - rewrite visit_BS_OR.
    destruct (visit_BS_kids PreNNF args) as [args'|] eqn:E; [|discriminate].
    simpl. intros [= <-]. simpl. eapply and_or_neg_kids; eassumption.
  - simpl. destruct (visit_BS PreNNF e1), (visit_BS PreNNF e2); discriminate.
  - simpl. destruct (visit_BS PreNNF e) as [a'|]; [|discriminate].
    simpl. intros [= <-]. simpl. auto.
  - simpl. destruct (visit_BS PreNNF e1) as [a'|]; [|discriminate].
    destruct (visit_BS PreNNF e2) as [b'|]; [|discriminate].
    simpl. intros [= <-]. simpl.
    rewrite (IHe1 a' eq_refl), (IHe2 b' eq_refl). reflexivity.
  - simpl. destruct (visit_BS PreNNF e1) as [c'|]; [|discriminate].
    destruct (visit_BS PreNNF e2) as [a'|]; [|discriminate].
    destruct (visit_BS PreNNF e3) as [b'|]; [|discriminate].
    simpl. intros [= <-]. simpl.
    rewrite (IHe1 c' eq_refl), (IHe2 a' eq_refl), (IHe3 b' eq_refl). reflexivity.
  - simpl. destruct (visit_BS PreNNF e1) as [a'|]; [|discriminate].
    destruct (visit_BS PreNNF e2) as [b'|]; [|discriminate].
    simpl. intros [= <-]. simpl.
    rewrite (IHe1 a' eq_refl), (IHe2 b' eq_refl). reflexivity.
Qed.

Lemma pre_nnf_fixes_and_or_neg e : and_or_neg e = true → pre_nnf e = Some e.
Proof.
  unfold pre_nnf.
  induction e using Expr_rose_ind; try (simpl; discriminate); try reflexivity.
  - simpl and_or_neg. intros HS. rewrite visit_BS_AND, visit_BS_kids_id; [reflexivity|].
    rewrite Forall_forall in *. intros x Hx. apply H; [assumption|].
    rewrite forallb_forall in HS. apply HS, list_elem_of_In, Hx.
  - simpl and_or_neg. intros HS. rewrite visit_BS_OR, visit_BS_kids_id; [reflexivity|].
    rewrite Forall_forall in *. intros x Hx. apply H; [assumption|].
    rewrite forallb_forall in HS. apply HS, list_elem_of_In, Hx.
  - simpl. intros HS. rewrite (IHe HS). reflexivity.
Qed.

(** X1. The pre-NNF pass removes all Boolean operators except AND, OR and
    NEG: when it returns, the Boolean nodes of the result are built with
    AND, OR and NEG alone, the result has the truth value of the input in
    every model, and the pass returns the result unchanged when run on it
    again. *)
Theorem pre_nnf_normal_form (e e' : Expr) :
  pre_nnf e = Some e' →
  and_or_neg e' = true ∧
  (∀ M, eval M e' = eval M e) ∧
  pre_nnf e' = Some e'.
Proof.
  intros H. pose proof (pre_nnf_and_or_neg e e' H) as Hn.
  split; [exact Hn|]. split.
  - intros M. apply pre_nnf_eval, H.
  - apply pre_nnf_fixes_and_or_neg, Hn.
Qed.

Lemma pre_nnf_normal_form_witness :
  let e := IFF (bp 0) (ITE (bp 1) (THEORY "bvult" [TERM "x"; TERM "y"]) (bp 2)) in
  ∃ e', pre_nnf e = Some e' ∧
        and_or_neg e' = true ∧
        (∀ M, eval M e' = eval M e) ∧
        pre_nnf e' = Some e'.
Proof.
  intros e. eexists. split; [reflexivity|].
  apply (pre_nnf_normal_form e). reflexivity.
Defined.

(** X2. The Boolean abstraction fails on an XOR among the Boolean nodes and
    on nothing else, for a clause and for a side formula. *)
Theorem bool_abstraction_fails_iff_XOR (e : Expr) (side abs_side : list Expr) :
  (bool_abstraction e = None ↔ has_XOR e = true) ∧
  (bool_abstraction_vec side abs_side = None ↔ existsb has_XOR side = true).
Proof.
  split.
  - split.
    + intros HN. destruct (has_XOR e) eqn:E; [reflexivity|].
      destruct (bool_abstraction_total e E) as [b Hb]. congruence.
    + apply bool_abstraction_XOR.
  - unfold bool_abstraction_vec. rewrite bool_abstraction_push_mapM.
    destruct (existsb has_XOR side) eqn:E.
    + split; [reflexivity|]. intros _.
      apply existsb_exists in E as (x & Hx & HX). apply list_elem_of_In in Hx.
      replace (mapM bool_abstraction side) with (@None (list Expr)); [reflexivity|].
      symmetry. induction Hx as [x l|x y l _ IH]; simpl.
      * rewrite (bool_abstraction_XOR x HX). reflexivity.
      * rewrite IH by assumption. destruct (bool_abstraction y); reflexivity.
    + destruct (mapM_bool_abstraction_total side E) as [bs ->]. simpl.
      split; discriminate.
Qed.

(** X3. The visitor of the abstraction does not need its precondition to be
    sound: on every expression, in negation normal form or not, it returns a
    Boolean skeleton that holds in every model in which the expression
    holds. *)
Theorem BA_any_input (e : Expr) :
  skeleton (dagVisit BA.visit e) = true ∧
  ∀ M, eval M e = true → eval M (dagVisit BA.visit e) = true.
Proof.
  rewrite BA_skeleton_spec. split; [apply skeleton_spec_skeleton|].
  intros M. apply skeleton_spec_sound.
Qed.

(** X4. The abstraction of a side formula holds no [TRUE] clause: a clause
    of the result is a clause other than [TRUE] that was in [abs_side] or
    is the abstraction of a clause of the side formula, so the clauses
    [TRUE] that [abs_side] held at the call are erased too. *)
Theorem bool_abstraction_vec_no_TRUE (side abs_side abs : list Expr) :
  bool_abstraction_vec side abs_side = Some abs →
  (TRUE ∉ abs) ∧
  (length abs ≤ length abs_side + length side) ∧
  ∀ b, b ∈ abs ↔
       b ≠ TRUE ∧
       (b ∈ abs_side ∨ ∃ e, e ∈ side ∧ bool_abstraction e = Some b).
Proof.
  unfold bool_abstraction_vec. rewrite bool_abstraction_push_mapM.
  destruct (mapM bool_abstraction side) as [bs|] eqn:Ebs; [|discriminate].
  simpl. intros [= <-].
  assert (Hmem : ∀ b, b ∈ List.filter (λ e, negb (isTRUE e)) (abs_side ++ bs) ↔
                      b ≠ TRUE ∧ b ∈ abs_side ++ bs).
  { intros b. rewrite !list_elem_of_In, filter_In. split.
    - intros [H1 H2]. split; [|exact H1]. intros ->. discriminate.
    - intros [H1 H2]. split; [exact H2|].
      destruct b; try reflexivity. destruct H1. reflexivity. }
  split; [|split].
  - intros H. apply Hmem in H as [H _]. apply H. reflexivity.
  - etrans; [apply filter_length_le|].
    rewrite length_app. apply length_mapM in Ebs. lia.
  - intros b. rewrite Hmem, elem_of_app.
    assert (b ∈ bs ↔ ∃ e, e ∈ side ∧ bool_abstraction e = Some b) as ->; [|tauto].
    apply mapM_Some in Ebs. split.
    + intros Hb. apply list_elem_of_lookup in Hb as [i Hi].
      destruct (Forall2_lookup_r _ _ _ _ _ Ebs Hi) as (x & Hx & Hab).
      exists x. split; [eapply list_elem_of_lookup_2, Hx|exact Hab].
    + intros (x & Hx & Hab). apply list_elem_of_lookup in Hx as [i Hi].
      destruct (Forall2_lookup_l _ _ _ _ _ Ebs Hi) as (y & Hy & Hab').
      rewrite Hab in Hab'. injection Hab' as ->.
      eapply list_elem_of_lookup_2, Hy.
Qed.

Lemma bool_abstraction_vec_no_TRUE_witness :
  let x_is_1 := EQ (TERM "x") (TERM "1") in
  ∃ abs, bool_abstraction_vec [bp 0; x_is_1] [TRUE; bp 1] = Some abs ∧
    (TRUE ∉ abs) ∧
    (length abs ≤ 2 + 2) ∧
    ∀ b, b ∈ abs ↔
         b ≠ TRUE ∧
         (b ∈ [TRUE; bp 1] ∨ ∃ e, e ∈ [bp 0; x_is_1] ∧ bool_abstraction e = Some b).
Proof.
  intros x_is_1. eexists. split; [reflexivity|].
  apply (bool_abstraction_vec_no_TRUE [bp 0; x_is_1] [TRUE; bp 1]). reflexivity.
Defined.

Lemma skeleton_propositional M1 M2 e :
  (∀ a, prop_atom a = true → M1 a = M2 a) →
  skeleton e = true → eval M1 e = eval M2 e.
Proof.
  intros Hagree.
  induction e using Expr_rose_ind; try (simpl; discriminate); try reflexivity.
  - simpl. intros HS.
    induction H as [|x xs Hx _ IH]; simpl; [reflexivity|].
    simpl in HS. apply andb_true_iff in HS as [H1 H2].
    rewrite Hx, IH by assumption. reflexivity.
  - simpl. intros HS.
    induction H as [|x xs Hx _ IH]; simpl; [reflexivity|].
    simpl in HS. apply andb_true_iff in HS as [H1 H2].
    rewrite Hx, IH by assumption. reflexivity.
  - simpl. intros HS. f_equal. apply IHe.
    destruct e; simpl in *; try discriminate; try reflexivity.
    rewrite HS. reflexivity.
  - simpl. intros HS. apply Hagree. unfold prop_atom. simpl. exact HS.
  - intros HS. simpl. apply Hagree.
    unfold skeleton, BA.is_pos_bool_lit in HS. simpl in HS.
    rewrite orb_false_r in HS. unfold prop_atom, isBoolConst.
    rewrite HS. reflexivity.
Qed.

(** X5. The abstraction is propositional: its truth value in a model rests
    on the values that the model gives to the Boolean constants and to the
    equalities between Boolean literals, and on nothing else; the theory
    atoms of the clause have no influence. *)
Theorem bool_abstraction_propositional (e b : Expr) (M1 M2 : Expr → bool) :
  bool_abstraction e = Some b →
  (∀ a, prop_atom a = true → M1 a = M2 a) →
  eval M1 b = eval M2 b.
Proof.
  unfold bool_abstraction.
  destruct (pre_nnf e) as [e1|]; [|discriminate]. simpl.
  intros [= <-] Hagree. apply skeleton_propositional; [exact Hagree|].
  rewrite BA_skeleton_spec. apply skeleton_spec_skeleton.
Qed.

Lemma bool_abstraction_propositional_witness :
  let x_lt_y := THEORY "bvult" [TERM "x"; TERM "y"] in
  let e := IMPL (bp 0) (AND [x_lt_y; bp 1]) in
  let M1 := λ a, isBoolConst a in
  let M2 := λ a, isBoolConst a || Expr_eqb a x_lt_y in
  ∃ b, bool_abstraction e = Some b ∧ eval M1 b = eval M2 b.
Proof.
  intros x_lt_y e M1 M2. eexists. split; [reflexivity|].
  apply (bool_abstraction_propositional e _ M1 M2); [reflexivity|].
  intros a Ha. unfold M1, M2.
  destruct a; try discriminate; try reflexivity.
  simpl in Ha. unfold prop_atom in Ha. simpl in Ha. rewrite orb_false_r in Ha.
  simpl. rewrite Ha. reflexivity.
Defined.

(** ** The minimal unsat cores under assumptions *)

Lemma NoDup_of_splits (C : list Expr) :
  (∀ d1 x d2, C = d1 ++ x :: d2 → x ∉ d1 ++ d2) → NoDup C.
Proof.
  induction C as [|y C IH]; intros H; constructor.
  - apply (H [] y C eq_refl).
  - apply IH. intros d1 x d2 ->. intros Hin.
    apply (H (y :: d1) x d2 eq_refl). simpl. right. exact Hin.
Qed.

Section MUCFurther.
Context {Interp : Type}.
Variable holds : Interp → Expr → Prop.
Variable m_solver : ZSolver.

(** The solver decides, and its answers are right. *)
Hypothesis solver_true : ∀ l, m_solver l = tri_true → satisfiable holds l.
Hypothesis solver_false : ∀ l, m_solver l = tri_false → ¬ satisfiable holds l.
Hypothesis solver_decides : ∀ l, m_solver l ≠ indeterminate.

Lemma solver_answers_true l : satisfiable holds l → m_solver l = tri_true.
Proof.
  intros HS. destruct (m_solver l) eqn:E; [reflexivity| |].
  - destruct (solver_false l E HS).
  - destruct (solver_decides l E).
Qed.

Lemma positional_NoDup asm (C : list Expr) :
  ¬ satisfiable holds (asm ++ C) →
  (∀ d1 x d2, C = d1 ++ x :: d2 → satisfiable holds (asm ++ d1 ++ d2)) →
  NoDup C.
Proof.
  intros HU HM. apply NoDup_of_splits. intros d1 x d2 -> Hin.
  apply HU. eapply satisfiable_incl; [|apply (HM d1 x d2 eq_refl)].
  intros e. rewrite !elem_of_app, elem_of_cons.
  rewrite elem_of_app in Hin. intros [He|[He|[->|He]]]; tauto.
Qed.

(** X6. The naive strategy under assumptions: when the clauses of [f] are
    unsatisfiable together with the assumptions, the core is made of clauses
    of [f], each as often at most as in [f] and never twice, it is
    unsatisfiable together with the assumptions, and it becomes satisfiable
    with them once any of its clauses is taken out.  No assumption enters
    the core. *)
Theorem naive_muc_under_assumptions (f assumptions : list Expr) :
  ¬ satisfiable holds (assumptions ++ f) →
  ∃ C, naive_muc.run_with m_solver f assumptions [] = Some C ∧
       C ⊆+ f ∧
       NoDup C ∧
       ¬ satisfiable holds (assumptions ++ C) ∧
       ∀ c, c ∈ C → satisfiable holds (assumptions ++ without c C).
Proof.
  intros HU.
  destruct (naive_run_with_core holds m_solver solver_true solver_false
              solver_decides f assumptions HU) as (C & HC & Hsub & HUC & HM).
  exists C. split; [exact HC|]. split; [exact Hsub|].
  split; [eapply positional_NoDup; eassumption|]. split; [exact HUC|].
  intros c Hc. apply list_elem_of_split in Hc as (d1 & d2 & ->).
  eapply satisfiable_incl; [|apply (HM d1 c d2 eq_refl)].
  intros e. rewrite !elem_of_app. intros [He|He]; [tauto|].
  apply without_incl, elem_of_app in He. tauto.
Qed.

(** X7. The binary search keeps no clause twice either: with a solver that
    decides and is right, and an interpretation at hand, the core of an
    unsatisfiable list, which may hold a clause several times, has no
    duplicate and holds each clause as often at most as the list. *)
Theorem binary_search_muc_NoDup (m0 : Interp) (F : list Expr) :
  ¬ satisfiable holds F →
  ∃ C, binary_search_muc.run m_solver F = Some C ∧ NoDup C ∧ C ⊆+ F.
Proof.
  intros HU.
  destruct (run_with_assumptions_core holds m_solver solver_true solver_false
              solver_decides (S (length F)) F [] []) as (C & HC & Hsub & HUC & HM).
  - lia.
  - exact HU.
  - exists m0. intros e He. apply elem_of_nil in He. destruct He.
  - intros e He. exact He.
  - exists C. split; [exact HC|]. split; [|exact Hsub].
    eapply positional_NoDup; eassumption.
Qed.

(** The naive loop keeps every clause of a list from which no clause can be
    taken out. *)
Lemma split_loop_minimal asm : ∀ fuel kept todo,
  length todo ≤ fuel →
  (∀ d1 x d2, kept ++ todo = d1 ++ x :: d2 →
     satisfiable holds (asm ++ d1 ++ d2)) →
  split_loop m_solver asm fuel kept todo = Some (kept ++ todo).
Proof.
  induction fuel as [|fuel IH]; intros kept [|saved rest] Hlen HM; simpl in *;
    rewrite ?app_nil_r; try reflexivity; try lia.
  rewrite (solver_answers_true (asm ++ kept ++ rotate_back rest)).
  - rewrite IH; [rewrite <- app_assoc; reflexivity|lia|].
    intros d1 x d2 Hd. apply (HM d1 x d2). rewrite <- app_assoc in Hd. exact Hd.
  - eapply satisfiable_incl; [|apply (HM kept saved rest eq_refl)].
    intros e. rewrite !elem_of_app, rotate_back_Permutation. tauto.
Qed.

Lemma naive_run_with_minimal f asm :
  ¬ satisfiable holds (asm ++ f) →
  (∀ d1 x d2, f = d1 ++ x :: d2 → satisfiable holds (asm ++ d1 ++ d2)) →
  naive_muc.run_with m_solver f asm [] = Some f.
Proof.
  intros HU HM. unfold naive_muc.run_with, naive_muc.check.
  destruct (m_solver (asm ++ f)) eqn:E;
    [destruct (HU (solver_true _ E)) | | destruct (solver_decides _ E)].
  cbn [tribool_to_bool]. cbv iota. simpl app.
  pose proof (run_loop_split m_solver asm (length f) [] f) as Eloop.
  simpl in Eloop. rewrite Eloop. clear Eloop.
  apply (split_loop_minimal asm (length f) [] f); [lia|exact HM].
Qed.

Lemma run_with_assumptions_minimal : ∀ fuel f asm core,
  length f < fuel →
  ¬ satisfiable holds (asm ++ f) →
  (∀ d1 x d2, f = d1 ++ x :: d2 → satisfiable holds (asm ++ d1 ++ d2)) →
  core ⊆ asm →
  binary_search_muc.run_with_assumptions m_solver fuel f asm core
  = Some (core ++ f).
Proof.
  induction fuel as [|fuel IH]; intros f asm core Hlen HU HM Hcore; [lia|].
  cbn [binary_search_muc.run_with_assumptions].
  unfold binary_search_muc.check_with_assumptions.
  destruct (m_solver (asm ++ f)) eqn:E;
    [destruct (HU (solver_true _ E)) | | destruct (solver_decides _ E)].
  cbn [tribool_to_bool].
  destruct (length f <=? binary_search_muc.threshold) eqn:Et.
  - destruct (length f =? 0) eqn:E0; [|destruct (length f =? 1) eqn:E1].
    + apply Nat.eqb_eq in E0. destruct f; [|discriminate].
      rewrite app_nil_r. reflexivity.
    + reflexivity.
    + rewrite (naive_run_with_minimal f asm HU HM). reflexivity.
  - apply Nat.leb_gt in Et. unfold binary_search_muc.threshold in Et.
    remember (take (length f `div` 2) f) as A eqn:EA0.
    remember (drop (length f `div` 2) f) as B eqn:EB0.
    assert (HAB : A ++ B = f) by (subst A B; apply take_drop).
    assert (Hhalf : length f `div` 2 < length f) by (apply Nat.div_lt; lia).
    assert (Hpos : 0 < length f `div` 2) by (apply Nat.div_str_pos; lia).
    assert (HlA : length A = length f `div` 2)
      by (subst A; rewrite length_take; lia).
    assert (HlB : length B = length f - length f `div` 2)
      by (subst B; apply length_drop).
    assert (HsA : satisfiable holds (asm ++ A)).
    { clear EB0. destruct B as [|b B']; [cbn [length] in HlB; lia|].
      eapply satisfiable_incl; [|apply (HM A b B'); symmetry; exact HAB].
      intros e. rewrite !elem_of_app. tauto. }
    assert (HsB : satisfiable holds (asm ++ B)).
    { clear EA0. destruct A as [|a A']; [cbn [length] in HlA; lia|].
      eapply satisfiable_incl; [|apply (HM [] a (A' ++ B)); symmetry; exact HAB].
      intros e. rewrite !elem_of_app. tauto. }
    rewrite (solver_answers_true _ HsA), (solver_answers_true _ HsB).
    rewrite (IH A (asm ++ B) core).
    + cbn [mbind option_bind].
      rewrite (IH B (asm ++ core ++ A) (core ++ A)).
      * rewrite <- app_assoc, HAB. reflexivity.
      * lia.
      * eapply unsatisfiable_incl; [|exact HU]. rewrite <- HAB.
        intros e. rewrite !elem_of_app. tauto.
      * intros d1 x d2 Hd.
        eapply satisfiable_incl;
          [|apply (HM (A ++ d1) x d2); rewrite <- HAB, Hd, <- app_assoc; reflexivity].
        intros e. rewrite !elem_of_app. pose proof (Hcore e). tauto.
      * intros e. rewrite !elem_of_app. tauto.
    + lia.
    + eapply unsatisfiable_incl; [|exact HU]. rewrite <- HAB.
      intros e. rewrite !elem_of_app. tauto.
    + intros d1 x d2 Hd.
      eapply satisfiable_incl;
        [|apply (HM d1 x (d2 ++ B)); rewrite <- HAB, Hd, <- app_assoc; reflexivity].
      intros e. rewrite !elem_of_app. tauto.
    + intros e He. apply elem_of_app. left. apply Hcore, He.
Qed.

(** X8. A list that is a minimal unsat core already is returned as it is, in
    its order, by the naive strategy and by the binary search: when the list
    is unsatisfiable and satisfiable without any one of its clauses, no
    clause is discarded and none is moved. *)
Theorem minimal_input_unchanged (F : list Expr) :
  ¬ satisfiable holds F →
  (∀ d1 x d2, F = d1 ++ x :: d2 → satisfiable holds (d1 ++ d2)) →
  naive_muc.run m_solver F = Some F ∧
  binary_search_muc.run m_solver F = Some F.
Proof.
  intros HU HM. split.
  - apply (naive_run_with_minimal F [] HU HM).
  - apply (run_with_assumptions_minimal (S (length F)) F [] []);
      [lia|exact HU|exact HM|intros e He; exact He].
Qed.

End MUCFurther.

(** X9. Up to the threshold of ten clauses the binary search is the naive
    strategy; a list of at most one clause is returned as it is once the
    assertion at the entry has passed, with no further call of the solver,
    so a single clause is kept even by a solver that refutes the empty
    context. *)
Theorem binary_search_below_threshold (m_solver : ZSolver) (F : list Expr) :
  length F ≤ binary_search_muc.threshold →
  binary_search_muc.run m_solver F =
  if length F <? 2
  then (if tribool_to_bool (m_solver F) then None else Some F)
  else naive_muc.run m_solver F.
Proof.
  intros Hle. unfold binary_search_muc.run.
  cbn [binary_search_muc.run_with_assumptions].
  unfold binary_search_muc.check_with_assumptions. simpl app.
  apply Nat.leb_le in Hle. rewrite Hle.
  destruct F as [|a [|b F]]; simpl length; cbn [Nat.eqb Nat.ltb Nat.leb].
  - reflexivity.
  - reflexivity.
  - unfold naive_muc.run, naive_muc.run_with, naive_muc.check. simpl app.
    destruct (tribool_to_bool (m_solver (a :: b :: F))); [reflexivity|].
    cbn [length]. destruct (naive_muc.run_loop _ _ _ _ _); reflexivity.
Qed.

Lemma naive_muc_under_assumptions_witness :
  let f := [TRUE; bp 1; TRUE; bp 1] in
  let assumptions := [NEG (bp 1)] in
  ∃ C, naive_muc.run_with const_solver f assumptions [] = Some C ∧
       C ⊆+ f ∧
       NoDup C ∧
       ¬ satisfiable const_holds (assumptions ++ C) ∧
       ∀ c, c ∈ C → satisfiable const_holds (assumptions ++ without c C).
Proof.
  intros f assumptions.
  apply (naive_muc_under_assumptions const_holds const_solver
           const_solver_true const_solver_false const_solver_decides f assumptions).
  apply const_solver_false. reflexivity.
Defined.

Lemma binary_search_muc_NoDup_witness :
  let F := [bp 1; TRUE; bp 1; TRUE; NEG (bp 1); TRUE; TRUE; TRUE; bp 1; TRUE;
            TRUE; NEG (bp 1); TRUE] in
  ∃ C, binary_search_muc.run const_solver F = Some C ∧ NoDup C ∧ C ⊆+ F.
Proof.
  intros F.
  apply (binary_search_muc_NoDup const_holds const_solver
           const_solver_true const_solver_false const_solver_decides true F).
  apply const_solver_false. reflexivity.
Defined.

Lemma minimal_input_unchanged_witness :
  let F := [bp 1; NEG (bp 1)] in
  naive_muc.run const_solver F = Some F ∧
  binary_search_muc.run const_solver F = Some F.
Proof.
  intros F.
  apply (minimal_input_unchanged const_holds const_solver
           const_solver_true const_solver_false const_solver_decides F).
  - apply const_solver_false. reflexivity.
  - intros d1 x d2 Hd. apply const_solver_true.
    destruct d1 as [|a [|b [|c d1]]]; injection Hd as <-; intros; subst;
      try reflexivity; try discriminate.
Defined.

Lemma binary_search_below_threshold_witness :
  let F := [TRUE; bp 1; NEG (bp 1)] in
  binary_search_muc.run const_solver F =
  if length F <? 2
  then (if tribool_to_bool (const_solver F) then None else Some F)
  else naive_muc.run const_solver F.
Proof.
  intros F. apply (binary_search_below_threshold const_solver F).
  unfold binary_search_muc.threshold. simpl. lia.
Defined.

(** ** The order of the active literals and the edge predicates *)

(** X10. [lessExpr] is a strict total order whenever the order of the
    handles is one, as an ordered set needs of its comparator, and it puts
    every expression that is not a tuple before every tuple. *)
Theorem lessExpr_strict_order (handle_lt : Expr → Expr → bool) :
  (∀ x, handle_lt x x = false) →
  (∀ x y z, handle_lt x y = true → handle_lt y z = true → handle_lt x z = true) →
  (∀ x y, x ≠ y → handle_lt x y = true ∨ handle_lt y x = true) →
  (∀ x, lessExpr handle_lt x x = false) ∧
  (∀ x y z, lessExpr handle_lt x y = true → lessExpr handle_lt y z = true →
            lessExpr handle_lt x z = true) ∧
  (∀ x y, x ≠ y → lessExpr handle_lt x y = true ∨ lessExpr handle_lt y x = true) ∧
  (∀ e1 e2, isTuple e1 = false → isTuple e2 = true →
            lessExpr handle_lt e1 e2 = true ∧ lessExpr handle_lt e2 e1 = false).
Proof.
  intros Hirr Htrans Htot. unfold lessExpr. repeat split.
  - intros x. destruct (isTuple x); simpl; apply Hirr.
  - intros x y z.
    destruct (isTuple x), (isTuple y), (isTuple z); simpl;
      try discriminate; try reflexivity; apply Htrans.
  - intros x y Hne.
    destruct (isTuple x), (isTuple y); simpl; auto.
  - rewrite H, H0. reflexivity.
  - rewrite H, H0. reflexivity.
Qed.

Lemma encode_lt_irrefl x : encode_lt x x = false.
Proof. apply bool_decide_eq_false_2. lia. Qed.

Lemma encode_lt_trans x y z :
  encode_lt x y = true → encode_lt y z = true → encode_lt x z = true.
Proof.
  unfold encode_lt. rewrite !bool_decide_eq_true. lia.
Qed.

Lemma encode_lt_total (x y : Expr) :
  x ≠ y → encode_lt x y = true ∨ encode_lt y x = true.
Proof.
  intros Hne. unfold encode_lt. rewrite !bool_decide_eq_true.
  assert (encode x ≠ encode y) by (intros E; apply Hne, (inj encode), E). lia.
Qed.

Lemma lessExpr_strict_order_witness :
  (∀ x, lessExpr encode_lt x x = false) ∧
  (∀ x y z, lessExpr encode_lt x y = true → lessExpr encode_lt y z = true →
            lessExpr encode_lt x z = true) ∧
  (∀ x y, x ≠ y → lessExpr encode_lt x y = true ∨ lessExpr encode_lt y x = true) ∧
  (∀ e1 e2, isTuple e1 = false → isTuple e2 = true →
            lessExpr encode_lt e1 e2 = true ∧ lessExpr encode_lt e2 e1 = false).
Proof.
  exact (lessExpr_strict_order encode_lt encode_lt_irrefl encode_lt_trans
           encode_lt_total).
Defined.

(** X11. Tuples round trip: [getTuple] gives back the two elements that a
    tuple constant was built from, and it succeeds on the expressions on
    which [isTuple] holds and on no other, so the assertion of [getTuple]
    holds wherever the engine calls it after the test. *)
Theorem getTuple_round_trip (a b e : Expr) :
  getTuple (boolConst (TUPLE a b)) = Some (a, b) ∧
  isTuple (boolConst (TUPLE a b)) = true ∧
  (isTuple e = true ↔ is_Some (getTuple e)) ∧
  (getTuple e = Some (a, b) → isBoolConst e = true → e = boolConst (TUPLE a b)).
Proof.
  split; [reflexivity|]. split; [reflexivity|]. split.
  - unfold isTuple, getTuple.
    destruct (first_kid e) as [[]|]; simpl;
      try (split; [discriminate|intros [? ?]; discriminate]).
    destruct name; simpl;
      try (split; [discriminate|intros [? ?]; discriminate]).
    split; eauto.
  - unfold getTuple. intros Hg Hc.
    destruct e; try discriminate. simpl in Hg, Hc.
    destruct e; try discriminate. destruct sig as [|[] [|]]; try discriminate.
    destruct args; try discriminate.
    destruct e; try discriminate. injection Hg as -> ->. reflexivity.
Qed.

Lemma getTuple_round_trip_witness :
  let e := boolConst (TUPLE (bp 1) (bp 3)) in
  getTuple (boolConst (TUPLE (bp 1) (bp 3))) = Some (bp 1, bp 3) ∧
  isTuple (boolConst (TUPLE (bp 1) (bp 3))) = true ∧
  (isTuple e = true ↔ is_Some (getTuple e)) ∧
  (getTuple e = Some (bp 1, bp 3) → isBoolConst e = true →
   e = boolConst (TUPLE (bp 1) (bp 3))).
Proof.
  intros e. exact (getTuple_round_trip (bp 1) (bp 3) e).
Defined.

Lemma block_constant_not_tuple e :
  block_constant e = true → isTuple e = false ∧ isBoolConst e = true.
Proof.
  destruct e as [| | | | | | | | | |f args| | | | |]; try discriminate.
  destruct f as [| | | | | | | | | | |name sig| | | |]; try discriminate.
  destruct sig as [|[] [|]]; try discriminate.
  destruct args; try discriminate.
  destruct name; try discriminate; split; reflexivity.
Qed.

(** X12. Edge predicates and control predicates do not meet: when the
    control predicates are Boolean constants whose names are not tuples, the
    predicate of an edge is the control predicate of no block, it is a tuple
    exactly when the edge is critical, and then [getTuple] gives back the
    control predicates of its two ends; no control predicate is a tuple. *)
Theorem edge_predicate_fresh {ZModel : Type} (ext : Externals ZModel)
    (src dst b : BasicBlock) :
  (∀ b, block_constant (symb ext b) = true) →
  edge_predicate ext src dst ≠ symb ext b ∧
  isTuple (symb ext b) = false ∧
  isTuple (edge_predicate ext src dst) = isCriticalEdge (cfg ext) src dst ∧
  (isCriticalEdge (cfg ext) src dst = true →
   getTuple (edge_predicate ext src dst) = Some (symb ext src, symb ext dst)).
Proof.
  intros Hsymb.
  assert (Hnt : ∀ b, isTuple (symb ext b) = false).
  { intros b'. apply block_constant_not_tuple, Hsymb. }
  unfold edge_predicate. destruct (isCriticalEdge (cfg ext) src dst).
  - split; [|split; [apply Hnt|split; [reflexivity|reflexivity]]].
    intros E. specialize (Hnt b). rewrite <- E in Hnt. discriminate.
  - split; [|split; [apply Hnt|split; [|discriminate]]].
    + intros E. specialize (Hsymb b). rewrite <- E in Hsymb. discriminate.
    + specialize (Hsymb src). unfold isTuple. simpl.
      destruct (symb ext src) as [| | | | | | | | | |f args| | | | |];
        try discriminate.
      destruct f; try discriminate; reflexivity.
Qed.

Lemma edge_predicate_fresh_witness :
  let ext := refuting_externals ∅ in
  edge_predicate ext 1 3 ≠ symb ext 2 ∧
  isTuple (symb ext 2) = false ∧
  isTuple (edge_predicate ext 1 3) = isCriticalEdge (cfg ext) 1 3 ∧
  (isCriticalEdge (cfg ext) 1 3 = true →
   getTuple (edge_predicate ext 1 3) = Some (symb ext 1, symb ext 3)).
Proof.
  intros ext. apply (edge_predicate_fresh ext 1 3 2).
  intros b. reflexivity.
Defined.

(** ** The strategies with the context of the solver *)

(** The strategies that also give the assertions left in the solver compute
    the cores of the strategies above, and abort when they do. *)
Lemma run_loop_solver_fst m_solver assumptions : ∀ fuel out i ctx,
  fst <$> naive_muc.run_loop_solver m_solver assumptions fuel out i ctx
  = naive_muc.run_loop m_solver assumptions fuel out i.
Proof.
  induction fuel as [|fuel IH]; intros out i ctx; simpl;
    destruct (i <? length out); try reflexivity.
  destruct (out !! i), (last out); try reflexivity.
  destruct (naive_muc.check _ _ _); auto.
Qed.

Lemma run_with_solver_fst m_solver f assumptions out :
  fst <$> naive_muc.run_with_solver m_solver f assumptions out
  = naive_muc.run_with m_solver f assumptions out.
Proof.
  unfold naive_muc.run_with_solver, naive_muc.run_with.
  destruct (tribool_to_bool _); [reflexivity|]. apply run_loop_solver_fst.
Qed.

Lemma naive_muc_run_solver_fst m_solver f :
  fst <$> naive_muc.run_solver m_solver f = naive_muc.run m_solver f.
Proof. apply run_with_solver_fst. Qed.

Lemma run_with_assumptions_solver_fst m_solver : ∀ fuel f assumptions core,
  fst <$> binary_search_muc.run_with_assumptions_solver m_solver fuel f
            assumptions core
  = binary_search_muc.run_with_assumptions m_solver fuel f assumptions core.
Proof.
  induction fuel as [|fuel IH]; intros f assumptions core; [reflexivity|].
  cbn [binary_search_muc.run_with_assumptions_solver
       binary_search_muc.run_with_assumptions].
  destruct (tribool_to_bool _); [reflexivity|].
  destruct (length f <=? binary_search_muc.threshold).
  - destruct (length f =? 0); [reflexivity|].
    destruct (length f =? 1); [reflexivity|].
    rewrite <- run_with_solver_fst.
    destruct (naive_muc.run_with_solver _ _ _ _) as [[c x]|]; reflexivity.
  - destruct (binary_search_muc.check_with_assumptions m_solver (take _ f) _);
      [|apply IH|reflexivity].
    destruct (binary_search_muc.check_with_assumptions m_solver (drop _ f) _);
      [|apply IH|reflexivity].
    rewrite <- (IH (take _ f)).
    destruct (binary_search_muc.run_with_assumptions_solver _ _ (take _ f) _ _)
      as [[c x]|]; [|reflexivity].
    apply IH.
Qed.

Lemma binary_search_muc_run_solver_fst m_solver f :
  fst <$> binary_search_muc.run_solver m_solver f
  = binary_search_muc.run m_solver f.
Proof. apply run_with_assumptions_solver_fst. Qed.

(** ** The order of traversal *)

Lemma sorted_insert_Permutation lt x l : sorted_insert lt x l ≡ₚ x :: l.
Proof.
  induction l as [|y l IH]; simpl; [reflexivity|].
  destruct (lt x y); [reflexivity|].
  rewrite IH. apply Permutation_swap.
Qed.

Lemma std_sort_Permutation lt l : std_sort lt l ≡ₚ l.
Proof.
  induction l as [|x l IH]; simpl; [reflexivity|].
  rewrite sorted_insert_Permutation, IH. reflexivity.
Qed.

Lemma std_unique_elem_of l e : e ∈ std_unique l ↔ e ∈ l.
Proof.
  induction l as [|x l IH]; [reflexivity|].
  destruct l as [|y l]; [reflexivity|].
  change (std_unique (x :: y :: l))
    with (if Expr_eqb x y then std_unique (y :: l) else x :: std_unique (y :: l)).
  destruct (Expr_eqb x y) eqn:E.
  - apply Expr_eqb_spec in E. subst y. rewrite IH, !elem_of_cons. tauto.
  - rewrite (elem_of_cons (std_unique (y :: l)) e x), IH,
      (elem_of_cons (y :: l) e x). reflexivity.
Qed.

Lemma std_set_elements_elem_of lt (s : gset Expr) e :
  e ∈ std_set_elements lt s ↔ e ∈ s.
Proof.
  unfold std_set_elements. rewrite std_sort_Permutation. apply elem_of_elements.
Qed.

Lemma path_formula_elem_of lt l e : e ∈ std_unique (std_sort lt l) ↔ e ∈ l.
Proof. rewrite std_unique_elem_of, std_sort_Permutation. reflexivity. Qed.

Section Order.
Variable lt : Expr → Expr → bool.
Hypothesis Hlt : strict_total_order lt.

Lemma lt_asym x y : lt x y = true → lt y x = false.
Proof.
  destruct Hlt as (Hirr & Htrans & _). intros Hxy.
  destruct (lt y x) eqn:Hyx; [|reflexivity].
  rewrite <- (Hirr x). symmetry. apply (Htrans x y x); assumption.
Qed.

Lemma sorted_insert_sorted x l :
  StronglySorted (λ a b, lt b a = false) l →
  StronglySorted (λ a b, lt b a = false) (sorted_insert lt x l).
Proof.
  destruct Hlt as (Hirr & Htrans & _).
  induction 1 as [|y l Hs IH Hy]; simpl.
  - constructor; constructor.
  - destruct (lt x y) eqn:Hxy.
    + constructor; [constructor; assumption|].
      constructor; [apply lt_asym, Hxy|].
      eapply List.Forall_impl; [|exact Hy]. intros z Hz. simpl in Hz.
      destruct (lt z x) eqn:Hzx; [|reflexivity].
      rewrite <- Hz. symmetry. apply (Htrans z x y); assumption.
    + constructor; [exact IH|].
      rewrite sorted_insert_Permutation. constructor; assumption.
Qed.

Lemma std_sort_sorted l : StronglySorted (λ a b, lt b a = false) (std_sort lt l).
Proof.
  induction l as [|x l IH]; simpl; [constructor|]. apply sorted_insert_sorted, IH.
Qed.

Lemma sorted_NoDup_strict l :
  StronglySorted (λ a b, lt b a = false) l → NoDup l →
  StronglySorted (λ a b, lt a b = true) l.
Proof.
  destruct Hlt as (_ & _ & Htot).
  induction 1 as [|x l Hs IH Hx]; intros Hnd; [constructor|].
  apply NoDup_cons in Hnd as [Hnin Hnd].
  constructor; [apply IH, Hnd|].
  apply List.Forall_forall. intros z Hz.
  assert (Hne : x ≠ z) by (intros ->; apply Hnin, list_elem_of_In, Hz).
  destruct (Htot x z Hne) as [H|H]; [exact H|].
  rewrite List.Forall_forall in Hx. rewrite (Hx z Hz) in H. discriminate.
Qed.

Lemma strict_sorted_NoDup l :
  StronglySorted (λ a b, lt a b = true) l → NoDup l.
Proof.
  destruct Hlt as (Hirr & _ & _).
  induction 1 as [|x l Hs IH Hx]; constructor; [|exact IH].
  intros Hin. apply list_elem_of_In in Hin.
  rewrite List.Forall_forall in Hx. specialize (Hx x Hin).
  rewrite Hirr in Hx. discriminate.
Qed.

Lemma std_unique_sorted l :
  StronglySorted (λ a b, lt b a = false) l →
  StronglySorted (λ a b, lt a b = true) (std_unique l).
Proof.
  destruct Hlt as (Hirr & Htrans & Htot).
  induction 1 as [|x l Hs IH Hx]; [constructor|].
  destruct l as [|y l]; [constructor; constructor|].
  change (std_unique (x :: y :: l))
    with (if Expr_eqb x y then std_unique (y :: l) else x :: std_unique (y :: l)).
  destruct (Expr_eqb x y) eqn:E; [exact IH|].
  apply Expr_eqb_neq in E. constructor; [exact IH|].
  apply List.Forall_forall. intros z Hz.
  apply list_elem_of_In in Hz. apply (proj1 (std_unique_elem_of _ _)) in Hz.
  apply (proj1 (list_elem_of_In _ _)) in Hz.
  rewrite List.Forall_forall in Hx.
  assert (Hxy : lt x y = true).
  { destruct (Htot x y E) as [H|H]; [exact H|].
    rewrite (Hx y) in H by (left; reflexivity). discriminate. }
  destruct Hz as [<-|Hz]; [exact Hxy|].
  apply StronglySorted_inv in Hs as [_ Hy]. rewrite List.Forall_forall in Hy.
  destruct (decide (y = z)) as [<-|Hne]; [exact Hxy|].
  destruct (Htot y z Hne) as [H|H].
  - apply (Htrans x y z); assumption.
  - rewrite (Hy z Hz) in H. discriminate.
Qed.

(** The path formula and the traversal of a set are in the strict order of
    their comparator. *)
Lemma path_formula_sorted l :
  StronglySorted (λ a b, lt a b = true) (std_unique (std_sort lt l)).
Proof. apply std_unique_sorted, std_sort_sorted. Qed.

Lemma std_set_elements_sorted (s : gset Expr) :
  StronglySorted (λ a b, lt a b = true) (std_set_elements lt s).
Proof.
  apply sorted_NoDup_strict; [apply std_sort_sorted|].
  unfold std_set_elements. rewrite std_sort_Permutation. apply NoDup_elements.
Qed.

(** A sequence in strict order is known by its members: the order in which
    the members of a set are handed to the sort has no influence. *)
Lemma strict_sorted_unique l1 : ∀ l2,
  StronglySorted (λ a b, lt a b = true) l1 →
  StronglySorted (λ a b, lt a b = true) l2 →
  (∀ e, e ∈ l1 ↔ e ∈ l2) → l1 = l2.
Proof.
  destruct Hlt as (Hirr & Htrans & _).
  induction l1 as [|x l1 IH]; intros [|y l2] H1 H2 Hmem.
  - reflexivity.
  - exfalso. eapply (not_elem_of_nil y), Hmem. left.
  - exfalso. eapply (not_elem_of_nil x), Hmem. left.
  - apply StronglySorted_inv in H1 as [H1 Hx], H2 as [H2 Hy].
    rewrite List.Forall_forall in Hx, Hy.
    assert (x = y) as <-.
    { pose proof (proj1 (Hmem x) (list_elem_of_here _ _)) as Hxin.
      pose proof (proj2 (Hmem y) (list_elem_of_here _ _)) as Hyin.
      apply elem_of_cons in Hxin as [E|Hxin]; [exact E|].
      apply elem_of_cons in Hyin as [E|Hyin]; [symmetry; exact E|].
      apply list_elem_of_In in Hxin, Hyin.
      pose proof (lt_asym _ _ (Hx y Hyin)) as Hc.
      rewrite (Hy x Hxin) in Hc. discriminate. }
    f_equal. apply IH; [assumption|assumption|].
    intros e. specialize (Hmem e). rewrite !elem_of_cons in Hmem.
    split; intros He.
    + destruct (proj1 Hmem (or_intror He)) as [->|H]; [|exact H].
      apply list_elem_of_In in He. specialize (Hx x He).
      rewrite Hirr in Hx. discriminate.
    + destruct (proj2 Hmem (or_intror He)) as [->|H]; [|exact H].
      apply list_elem_of_In in He. specialize (Hy x He).
      rewrite Hirr in Hy. discriminate.
Qed.

(** The traversal of the set of the members of a sequence is the sequence
    sorted, without its duplicates. *)
Lemma std_set_elements_list_to_set l :
  std_set_elements lt (list_to_set l) = std_unique (std_sort lt l).
Proof.
  apply strict_sorted_unique;
    [apply std_set_elements_sorted|apply path_formula_sorted|].
  intros e. rewrite std_set_elements_elem_of, path_formula_elem_of.
  apply elem_of_list_to_set.
Qed.

End Order.

Lemma lessExpr_order handle_lt :
  strict_total_order handle_lt → strict_total_order (lessExpr handle_lt).
Proof.
  intros (Hirr & Htrans & Htot). unfold lessExpr. repeat split.
  - intros x. destruct (isTuple x); simpl; apply Hirr.
  - intros x y z.
    destruct (isTuple x), (isTuple y), (isTuple z); simpl;
      try discriminate; try reflexivity; apply Htrans.
  - intros x y Hne.
    destruct (isTuple x), (isTuple y); simpl; auto.
Qed.

Lemma encode_lt_order : strict_total_order encode_lt.
Proof.
  split; [exact encode_lt_irrefl|]. split; [exact encode_lt_trans|].
  exact encode_lt_total.
Qed.

(** ** The refinement by the abstract interpreter *)

Lemma size_union_le_sum (X Y : gset Expr) : size (X ∪ Y) ≤ size X + size Y.
Proof.
  rewrite size_union_alt.
  assert (size (Y ∖ X) ≤ size Y) by (apply subseteq_size, subseteq_difference_l; reflexivity).
  lia.
Qed.

Section AIFurther.
Context {ZModel : Type}.
Variable ext : Externals ZModel.

(** What a statement adds does not depend on the literals found so far: it
    is one control predicate, or a control predicate with an edge
    predicate. *)
Lemma add_active_lits_found (s : statement_wrapper) (lits X : gset Expr) :
  add_active_lits ext s lits = lits_found X →
  ∃ c, X = c ∪ lits ∧
       (∀ lits', add_active_lits ext s lits' = lits_found (c ∪ lits')) ∧
       size c ≤ 2 ∧
       ∀ e, e ∈ c →
            (∃ b, e = symb ext b) ∨ (∃ src dst, e = edge_predicate ext src dst).
Proof.
  unfold add_active_lits.
  destruct (kind (m_s s)), (m_parent s) as [b|p q], (lhs_phi (m_s s)) as [d|];
    simpl; try discriminate; intros [= <-];
    first
      [ exists ({[symb ext b]});
        split; [reflexivity|]; split; [reflexivity|];
        split; [rewrite size_singleton; lia|];
        intros e He; apply elem_of_singleton in He; left; eauto
      | exists ({[edge_predicate ext p q]} ∪ {[symb ext p]});
        split; [apply (assoc_L (∪))|];
        split; [intros lits'; rewrite (assoc_L (∪)); reflexivity|];
        split; [etrans; [apply size_union_le_sum|]; rewrite !size_singleton; lia|];
        intros e He; apply elem_of_union in He as [He|He];
        apply elem_of_singleton in He; eauto
      | exists ({[edge_predicate ext b d]} ∪ {[symb ext b]});
        split; [apply (assoc_L (∪))|];
        split; [intros lits'; rewrite (assoc_L (∪)); reflexivity|];
        split; [etrans; [apply size_union_le_sum|]; rewrite !size_singleton; lia|];
        intros e He; apply elem_of_union in He as [He|He];
        apply elem_of_singleton in He; eauto
      | exists ({[edge_predicate ext p d]} ∪ {[symb ext p]});
        split; [apply (assoc_L (∪))|];
        split; [intros lits'; rewrite (assoc_L (∪)); reflexivity|];
        split; [etrans; [apply size_union_le_sum|]; rewrite !size_singleton; lia|];
        intros e He; apply elem_of_union in He as [He|He];
        apply elem_of_singleton in He; eauto ].
Qed.

Lemma infer_active_lits_found (stmts : list statement_wrapper) : ∀ lits X,
  infer_active_lits ext stmts lits = lits_found X →
  ∃ c, X = c ∪ lits ∧
       (∀ lits', infer_active_lits ext stmts lits' = lits_found (c ∪ lits')) ∧
       size c ≤ 2 * length stmts ∧
       ∀ e, e ∈ c →
            (∃ b, e = symb ext b) ∨ (∃ src dst, e = edge_predicate ext src dst).
Proof.
  induction stmts as [|s stmts IH]; intros lits X; simpl.
  - intros [= <-]. exists ∅. split; [rewrite (left_id_L ∅ (∪)); reflexivity|].
    split; [intros lits'; rewrite (left_id_L ∅ (∪)); reflexivity|].
    split; [rewrite size_empty; lia|]. intros e He. apply elem_of_empty in He. destruct He.
  - destruct (add_active_lits ext s lits) as [X1| |] eqn:E1; try discriminate.
    intros Hrest.
    destruct (add_active_lits_found s lits X1 E1) as (c1 & -> & Hall1 & Hsz1 & Hsh1).
    destruct (IH _ _ Hrest) as (c2 & -> & Hall2 & Hsz2 & Hsh2).
    exists (c2 ∪ c1). split; [apply (assoc_L (∪))|]. split; [|split].
    + intros lits'. rewrite Hall1, Hall2, (assoc_L (∪)). reflexivity.
    + etrans; [apply size_union_le_sum|]. lia.
    + intros e He. apply elem_of_union in He as [He|He]; auto.
Qed.

(** X13. The active literals that the relevant statements give are control
    predicates of blocks and predicates of edges, at most two for a
    statement; the literals found before are kept. *)
Theorem infer_active_lits_shape (stmts : list statement_wrapper)
    (lits0 lits : gset Expr) :
  infer_active_lits ext stmts lits0 = lits_found lits →
  lits0 ⊆ lits ∧
  size lits ≤ size lits0 + 2 * length stmts ∧
  ∀ e, e ∈ lits →
       e ∈ lits0 ∨ (∃ b, e = symb ext b) ∨
       (∃ src dst, e = edge_predicate ext src dst).
Proof.
  intros H. destruct (infer_active_lits_found stmts lits0 lits H)
    as (c & -> & _ & Hsz & Hsh).
  split; [apply union_subseteq_r|]. split.
  - etrans; [apply size_union_le_sum|]. lia.
  - intros e He. apply elem_of_union in He as [He|He]; auto.
Qed.

(** X14. The active set does not depend on the order of the relevant
    statements: when every statement is recognised, any rearrangement of
    the statements gives the same set. *)
Theorem infer_active_lits_Permutation (stmts stmts' : list statement_wrapper)
    (lits0 lits : gset Expr) :
  stmts ≡ₚ stmts' →
  infer_active_lits ext stmts lits0 = lits_found lits →
  infer_active_lits ext stmts' lits0 = lits_found lits.
Proof.
  intros HP. revert lits0 lits.
  induction HP as [|x l l' _ IH|x y l|l l' l'' _ IH1 _ IH2]; intros lits0 lits.
  - auto.
  - simpl. destruct (add_active_lits ext x lits0); try discriminate. apply IH.
  - simpl.
    destruct (add_active_lits ext y lits0) as [Xy| |] eqn:Ey; try discriminate.
    destruct (add_active_lits ext x Xy) as [Xyx| |] eqn:Ex; try discriminate.
    destruct (add_active_lits_found y lits0 Xy Ey) as (cy & -> & Hally & _).
    destruct (add_active_lits_found x _ Xyx Ex) as (cx & -> & Hallx & _).
    rewrite Hallx, Hally.
    replace (cy ∪ (cx ∪ lits0)) with (cx ∪ (cy ∪ lits0)); [auto|].
    rewrite !(assoc_L (∪)), (comm_L (∪) cx cy). reflexivity.
  - intros H. apply IH2, IH1, H.
Qed.

Lemma eval_active_lits_spec stores (lits : list Expr) : ∀ acc found out,
  eval_active_lits stores lits acc = (found, out) →
  ∃ vs, out = acc ++ vs ∧
        if found
        then Forall2 (λ e v, eval_in_stores stores e = Some v) lits vs
        else ∃ e, e ∈ lits ∧ eval_in_stores stores e = None.
Proof.
  induction lits as [|e lits IH]; intros acc found out; simpl.
  - intros [= <- <-]. exists []. rewrite app_nil_r. split; [reflexivity|constructor].
  - destruct (eval_in_stores stores e) as [v|] eqn:Ev.
    + intros H. destruct (IH _ _ _ H) as (vs & -> & Hvs).
      exists (v :: vs). rewrite <- app_assoc. split; [reflexivity|].
      destruct found.
      * constructor; assumption.
      * destruct Hvs as (e' & He' & HN). exists e'. split; [right; exact He'|exact HN].
    + intros [= <- <-]. exists []. rewrite app_nil_r. split; [reflexivity|].
      exists e. split; [left|exact Ev].
Qed.

(** X15. What the refinement by the abstract interpreter does to the engine:
    it changes the active literals at most, and leaves the auxiliary solver
    as it is; when the interpreter finds the path feasible the engine is
    left as it is and the answer is true; the answer is false only when the
    interpreter refuted the path, every relevant statement was recognised,
    and every literal of the active set has a value in the stores of the cut
    points, and then the active literals of the engine are these values, in
    the order in which the set is traversed: the order of [lessExpr] over
    the order of the handles. *)
Theorem path_encoding_and_solve_with_ai_result (st st' : Engine ZModel)
    (trace : list BasicBlock) (res : bool) :
  path_encoding_and_solve_with_ai ext st trace = Some (res, st') →
  (m_side st' = m_side st ∧ m_smt_solver st' = m_smt_solver st ∧
   m_aux_smt_solver st' = m_aux_smt_solver st ∧
   m_blocking_clauses st' = m_blocking_clauses st ∧
   m_model st' = m_model st ∧ m_result st' = m_result st) ∧
  ((path_analyze ext trace).1 = true → res = true ∧ st' = st) ∧
  (res = false →
   (path_analyze ext trace).1 = false ∧
   ∃ lits,
     infer_active_lits ext (path_analyze ext trace).2 ∅ = lits_found lits ∧
     (∀ e, e ∈ lessExpr_elements (expr_lt ext) lits ↔ e ∈ lits) ∧
     (strict_total_order (expr_lt ext) →
      StronglySorted (λ a b, lessExpr (expr_lt ext) a b = true)
        (lessExpr_elements (expr_lt ext) lits)) ∧
     Forall2 (λ e v, eval_in_stores (take (cps_size ext) (states ext)) e = Some v)
       (lessExpr_elements (expr_lt ext) lits) (m_active_bool_lits st')).
Proof.
  unfold path_encoding_and_solve_with_ai.
  destruct (path_analyze ext trace) as [r stmts]. simpl.
  destruct r; simpl.
  - intros [= <- <-]. split; [repeat split; reflexivity|].
    split; [auto|discriminate].
  - destruct (infer_active_lits ext stmts ∅) as [lits| |] eqn:Ei; try discriminate.
    + destruct (eval_active_lits _ _ _) as [found out] eqn:Ee.
      destruct (eval_active_lits_spec _ _ _ _ _ Ee) as (vs & -> & Hvs).
      destruct found; intros [= <- <-];
        (split; [repeat split; reflexivity|]); (split; [discriminate|]).
      * intros _. split; [reflexivity|]. exists lits. split; [reflexivity|].
        split; [intros e; apply std_set_elements_elem_of|].
        split; [|exact Hvs].
        intros Hord. apply std_set_elements_sorted, lessExpr_order, Hord.
      * discriminate.
    + intros [= <- <-]. split; [repeat split; reflexivity|]. split; discriminate.
Qed.

(** X16. The value of an active literal that is not a tuple is its value in
    the first store that changes it: no value is found exactly when every
    store leaves the literal as it is, and a value that is found differs
    from the literal. *)
Theorem eval_in_stores_first (stores : list SymStore) (e : Expr) :
  isTuple e = false →
  (eval_in_stores stores e = None ↔
   ∀ s, s ∈ stores → SymStore_eval s e = e) ∧
  (∀ v, eval_in_stores stores e = Some v →
        v ≠ e ∧
        ∃ pre s post,
          stores = pre ++ s :: post ∧
          (∀ s', s' ∈ pre → SymStore_eval s' e = e) ∧
          v = SymStore_eval s e).
Proof.
  intros Hnt. induction stores as [|s stores [IHN IHS]]; simpl.
  - split; [split; [intros _ s Hs; apply elem_of_nil in Hs; destruct Hs|reflexivity]|].
    discriminate.
  - rewrite Hnt. destruct (Expr_eqb (SymStore_eval s e) e) eqn:Eq; simpl.
    + apply Expr_eqb_spec in Eq. split.
      * rewrite IHN. split.
        -- intros H s' Hs'. apply elem_of_cons in Hs' as [->|Hs']; auto.
        -- intros H s' Hs'. apply H. right. exact Hs'.
      * intros v Hv. destruct (IHS v Hv) as (Hne & pre & s0 & post & -> & Hpre & ->).
        split; [exact Hne|]. exists (s :: pre), s0, post.
        split; [reflexivity|]. split; [|reflexivity].
        intros s' Hs'. apply elem_of_cons in Hs' as [->|Hs']; auto.
    + apply Expr_eqb_neq in Eq. split.
      * split; [discriminate|]. intros H. destruct Eq. apply H. left.
      * intros v [= <-]. split; [exact Eq|]. exists [], s, stores.
        split; [reflexivity|]. split; [|reflexivity].
        intros s' Hs'. apply elem_of_nil in Hs'. destruct Hs'.
Qed.

End AIFurther.

Lemma infer_active_lits_shape_witness :
  let stmts := (path_analyze crab_externals [0; 1; 3]).2 in
  ∃ lits, infer_active_lits crab_externals stmts ∅ = lits_found lits ∧
    ∅ ⊆ lits ∧
    size lits ≤ size (∅ : gset Expr) + 2 * length stmts ∧
    ∀ e, e ∈ lits →
         e ∈ (∅ : gset Expr) ∨ (∃ b, e = symb crab_externals b) ∨
         (∃ src dst, e = edge_predicate crab_externals src dst).
Proof.
  intros stmts. eexists. split; [reflexivity|].
  apply (infer_active_lits_shape crab_externals stmts ∅). reflexivity.
Defined.

Lemma infer_active_lits_Permutation_witness :
  let stmts := (path_analyze crab_externals [0; 1; 3]).2 in
  ∃ lits, infer_active_lits crab_externals stmts ∅ = lits_found lits ∧
          infer_active_lits crab_externals (reverse stmts) ∅ = lits_found lits.
Proof.
  intros stmts. eexists. split; [reflexivity|].
  apply (infer_active_lits_Permutation crab_externals stmts (reverse stmts) ∅).
  - symmetry. apply reverse_Permutation.
  - reflexivity.
Defined.

Lemma path_encoding_and_solve_with_ai_result_witness :
  let ext := crab_externals in
  let st := set_result first_head tri_true in
  ∃ st', path_encoding_and_solve_with_ai ext st [0; 1; 3] = Some (false, st') ∧
    m_active_bool_lits st' =
      [boolConst (THEORY "bb_0" [TERM "1"]);
       boolConst (TUPLE (boolConst (THEORY "bb_0" [TERM "1"]))
                        (boolConst (THEORY "bb_0" [TERM "3"])))] ∧
    strict_total_order (expr_lt ext) ∧
    (m_side st' = m_side st ∧ m_smt_solver st' = m_smt_solver st ∧
     m_aux_smt_solver st' = m_aux_smt_solver st ∧
     m_blocking_clauses st' = m_blocking_clauses st ∧
     m_model st' = m_model st ∧ m_result st' = m_result st) ∧
    ((path_analyze ext [0; 1; 3]).1 = true → false = true ∧ st' = st) ∧
    (false = false →
     (path_analyze ext [0; 1; 3]).1 = false ∧
     ∃ lits,
       infer_active_lits ext (path_analyze ext [0; 1; 3]).2 ∅ = lits_found lits ∧
       (∀ e, e ∈ lessExpr_elements (expr_lt ext) lits ↔ e ∈ lits) ∧
       (strict_total_order (expr_lt ext) →
        StronglySorted (λ a b, lessExpr (expr_lt ext) a b = true)
          (lessExpr_elements (expr_lt ext) lits)) ∧
       Forall2 (λ e v, eval_in_stores (take (cps_size ext) (states ext)) e = Some v)
         (lessExpr_elements (expr_lt ext) lits) (m_active_bool_lits st')).
Proof.
  intros ext st. eexists. split; [vm_compute; reflexivity|].
  split; [reflexivity|]. split; [exact encode_lt_order|].
  apply (path_encoding_and_solve_with_ai_result ext st _ [0; 1; 3] false).
  vm_compute. reflexivity.
Defined.

Lemma eval_in_stores_first_witness :
  let stores := [renaming_store] in
  (eval_in_stores stores (bp 1) = None ↔
   ∀ s, s ∈ stores → SymStore_eval s (bp 1) = bp 1) ∧
  (∀ v, eval_in_stores stores (bp 1) = Some v →
        v ≠ bp 1 ∧
        ∃ pre s post,
          stores = pre ++ s :: post ∧
          (∀ s', s' ∈ pre → SymStore_eval s' (bp 1) = bp 1) ∧
          v = SymStore_eval s (bp 1)).
Proof.
  intros stores. apply (eval_in_stores_first stores (bp 1)). reflexivity.
Defined.

(** ** The refinement by the SMT solver and the run of the engine *)

Lemma sat_app M (l1 l2 : list Expr) : sat M (l1 ++ l2) = sat M l1 && sat M l2.
Proof. unfold sat. apply forallb_app. Qed.

Section EngineFurther.
Context {ZModel : Type}.
Variable ext : Externals ZModel.

(** X17. The refinement by the SMT solver never aborts.  It resets the
    auxiliary solver and asserts the path formula in it: the implicant in
    the order of the handles, without its duplicates.  The answer is that of
    the solver on this context.  Besides the auxiliary solver, the
    refinement changes the cached model when the answer is true, the active
    literals when it is false, and nothing when it is indeterminate; the
    primary solver, the blocking clauses and the precise encoding are never
    touched.  After the answer false the auxiliary solver holds what
    [bmc_impl::unsat_core] left in it, and the active literals are, in the
    order of the handles and so without duplicates, the control predicates
    that the map of the implicant gives for the clauses of the unsat core; a
    clause of the core that the map does not know gives none. *)
Theorem path_encoding_and_solve_with_smt_result (st : Engine ZModel)
    (model : ZModel) :
  let implicant := (get_model_implicant ext (m_side st) model).1 in
  let mapLit := (get_model_implicant ext (m_side st) model).2 in
  let path_formula := std_unique (std_sort (expr_lt ext) implicant) in
  (∀ e, e ∈ path_formula ↔ e ∈ implicant) ∧
  (strict_total_order (expr_lt ext) →
   StronglySorted (λ a b, expr_lt ext a b = true) path_formula ∧
   NoDup path_formula) ∧
  ∃ st',
    path_encoding_and_solve_with_smt ext st model
      = Some (z3_solve ext path_formula, st') ∧
    m_side st' = m_side st ∧ m_smt_solver st' = m_smt_solver st ∧
    m_blocking_clauses st' = m_blocking_clauses st ∧
    m_result st' = m_result st ∧
    match z3_solve ext path_formula with
    | tri_true =>
        m_aux_smt_solver st' = path_formula ∧
        m_model st' = Some (z3_getModel ext path_formula) ∧
        m_active_bool_lits st' = m_active_bool_lits st
    | tri_false =>
        m_aux_smt_solver st' = unsat_core_solver ext path_formula ∧
        m_model st' = m_model st ∧
        (strict_total_order (expr_lt ext) →
         StronglySorted (λ a b, expr_lt ext a b = true) (m_active_bool_lits st') ∧
         NoDup (m_active_bool_lits st')) ∧
        ∀ l, l ∈ m_active_bool_lits st' ↔
             ∃ c, c ∈ unsat_core ext path_formula ∧ mapLit !! c = Some l
    | indeterminate =>
        m_aux_smt_solver st' = path_formula ∧
        m_model st' = m_model st ∧
        m_active_bool_lits st' = m_active_bool_lits st
    end.
Proof.
  intros implicant mapLit path_formula.
  split; [intros e; apply path_formula_elem_of|].
  split.
  { intros Hord. split; [apply path_formula_sorted, Hord|].
    apply (strict_sorted_NoDup _ Hord), path_formula_sorted, Hord. }
  unfold path_encoding_and_solve_with_smt.
  fold implicant mapLit.
  destruct (get_model_implicant ext (m_side st) model) as [imp amap] eqn:Eg.
  simpl in implicant, mapLit. fold implicant. fold path_formula.
  simpl m_aux_smt_solver.
  destruct (z3_solve ext path_formula) eqn:Ez; simpl.
  - eexists. split; [reflexivity|]. simpl. repeat split; reflexivity.
  - eexists. split; [reflexivity|]. simpl.
    split; [reflexivity|]. split; [reflexivity|]. split; [reflexivity|].
    split; [reflexivity|]. split; [reflexivity|]. split; [reflexivity|].
    split.
    { intros Hord. split; [apply std_set_elements_sorted, Hord|].
      apply (strict_sorted_NoDup _ Hord), std_set_elements_sorted, Hord. }
    intros l.
    rewrite std_set_elements_elem_of, elem_of_list_to_set, list_elem_of_omap.
    reflexivity.
  - eexists. split; [reflexivity|]. simpl. repeat split; reflexivity.
Qed.

(** X18. A blocking clause blocks what it is built from: in a model it has
    the value false exactly when every active literal holds, also for the
    empty active set, so after [add_blocking_clauses] a model satisfies the
    primary context exactly when it satisfied the context before and makes
    some active literal false. *)
Theorem blocking_clause_blocks (st : Engine ZModel) (M : Expr → bool) :
  eval M (blocking_clause (m_active_bool_lits st))
    = negb (sat M (m_active_bool_lits st)) ∧
  sat M (m_smt_solver (add_blocking_clauses st).2)
    = sat M (m_smt_solver st) && negb (sat M (m_active_bool_lits st)).
Proof.
  assert (H : eval M (blocking_clause (m_active_bool_lits st))
              = negb (sat M (m_active_bool_lits st))).
  { destruct (m_active_bool_lits st); reflexivity. }
  split; [exact H|].
  simpl. rewrite sat_app. unfold sat at 2. simpl. rewrite H, andb_true_r.
  reflexivity.
Qed.

(** The refinements leave the precise encoding as it is; the one by
    abstract interpretation leaves the cached model too. *)
Lemma path_encoding_and_solve_with_ai_keeps (st : Engine ZModel) trace res st' :
  path_encoding_and_solve_with_ai ext st trace = Some (res, st') →
  m_side st' = m_side st ∧ m_model st' = m_model st.
Proof.
  unfold path_encoding_and_solve_with_ai.
  destruct (path_analyze ext trace) as [r stmts].
  destruct r; simpl; [intros [= <- <-]; auto|].
  destruct (infer_active_lits ext stmts ∅); try discriminate;
    [|intros [= <- <-]; auto].
  destruct (eval_active_lits _ _ _) as [[|] lits]; intros [= <- <-]; auto.
Qed.

Lemma path_encoding_and_solve_with_smt_cases (st : Engine ZModel) (model : ZModel) :
  let pf := std_unique (std_sort (expr_lt ext)
              (get_model_implicant ext (m_side st) model).1) in
  ∃ st',
    path_encoding_and_solve_with_smt ext st model = Some (z3_solve ext pf, st') ∧
    m_side st' = m_side st ∧
    match z3_solve ext pf with
    | tri_true => m_model st' = Some (z3_getModel ext pf)
    | tri_false => m_model st' = m_model st
    | indeterminate => st' = set_aux_smt_solver st pf
    end.
Proof.
  unfold path_encoding_and_solve_with_smt.
  destruct (get_model_implicant ext (m_side st) model) as [imp amap]. simpl.
  destruct (z3_solve ext _) eqn:Ez; simpl; eexists;
    (split; [reflexivity|]); split; reflexivity.
Qed.

(** A turn of the main loop either returns the answer true of the SMT
    refinement, with the model cached, or goes through
    [add_blocking_clauses]. *)
Lemma solve_body_cases (st : Engine ZModel) (model : ZModel) (t : turn) :
  solve_body ext st model = Some t →
  ∃ st1,
    m_side st1 = m_side st ∧ m_smt_solver st1 = m_smt_solver st ∧
    m_blocking_clauses st1 = m_blocking_clauses st ∧
    ((t = turn_return tri_true st1 ∧
      ∃ model', let pf := std_unique (std_sort (expr_lt ext)
                  (get_model_implicant ext (m_side st) model').1) in
        z3_solve ext pf = tri_true ∧ m_model st1 = Some (z3_getModel ext pf)) ∨
     (m_model st1 = m_model st ∧
      t = (let '(ok, st2) := add_blocking_clauses st1 in
           if ok then turn_continue st2 else turn_return indeterminate st2))).
Proof.
  unfold solve_body.
  destruct (if UseCrab ext then _ else _) as [[ai_res st0]|] eqn:Hai; [|discriminate].
  assert (m_side st0 = m_side st ∧ m_smt_solver st0 = m_smt_solver st ∧
          m_blocking_clauses st0 = m_blocking_clauses st ∧
          m_model st0 = m_model st) as (Hd0 & Hs0 & HB0 & Hm0).
  { destruct (UseCrab ext).
    - destruct (path_encoding_and_solve_with_ai_keeps _ _ _ _ Hai).
      destruct (path_encoding_and_solve_with_ai_frame ext _ _ _ _ Hai). auto.
    - injection Hai as _ <-. auto. }
  cbn [mbind option_bind]. destruct ai_res; cbn [negb].
  - destruct (path_encoding_and_solve_with_smt_cases st0 model)
      as (st1 & Hsmt & Hd1 & Hcase).
    destruct (path_encoding_and_solve_with_smt_frame ext _ _ _ _ Hsmt) as [Hs1 HB1].
    rewrite Hsmt. cbn [mbind option_bind].
    destruct (z3_solve ext _) eqn:Ez; simpl tribool_to_bool; cbv iota.
    + intros [= <-]. exists st1. rewrite Hd1, Hs1, HB1.
      split; [auto|]. split; [auto|]. split; [auto|]. left.
      split; [reflexivity|]. exists model. simpl. rewrite <- Hd0.
      split; [exact Ez|exact Hcase].
    + intros Ht. exists st1. rewrite Hd1, Hs1, HB1.
      split; [auto|]. split; [auto|]. split; [auto|]. right.
      split; [congruence|].
      destruct (add_blocking_clauses st1) as [[|] st2]; congruence.
    + intros Ht. exists st1. rewrite Hd1, Hs1, HB1.
      split; [auto|]. split; [auto|]. split; [auto|]. right.
      split; [rewrite Hcase; exact Hm0|].
      destruct (add_blocking_clauses st1) as [[|] st2]; congruence.
  - intros Ht. exists st0.
    split; [auto|]. split; [auto|]. split; [auto|]. right. split; [exact Hm0|].
    destruct (add_blocking_clauses st0) as [[|] st2]; congruence.
Qed.

Lemma solve_loop_final abs_side : ∀ fuel st r st',
  engine_invariant ext abs_side st →
  solve_loop ext fuel st = Some (r, st') →
  m_side st' = vc_side ext ∧
  (r = tri_true ↔ is_Some (m_model st')) ∧
  (r = tri_true →
   z3_solve ext (m_smt_solver st') = tri_true ∧
   ∃ model, let pf := std_unique (std_sort (expr_lt ext)
               (get_model_implicant ext (vc_side ext) model).1) in
     z3_solve ext pf = tri_true ∧ m_model st' = Some (z3_getModel ext pf)) ∧
  ∃ bcs, m_smt_solver st' = abs_side ++ bcs ∧
         m_blocking_clauses st' = list_to_set bcs ∧
         (r ≠ indeterminate → NoDup bcs).
Proof.
  induction fuel as [|fuel IH]; intros st r st' (Hd & Hm & bcs & Hs & HB & Hnd);
    simpl; [discriminate|].
  destruct (z3_solve ext (m_smt_solver st)) eqn:Ez; simpl tribool_to_bool; cbv iota.
  - destruct (solve_body ext _ _) as [t|] eqn:Hbody; [|discriminate].
    apply solve_body_cases in Hbody
      as (st1 & Hd1 & Hs1 & HB1 & [[-> (model' & Hz & Hm1)]|[Hm1 ->]]);
      simpl in Hd1, Hs1, HB1.
    + intros [= <- <-]. split; [congruence|]. split.
      { rewrite Hm1. split; eauto. }
      split.
      { intros _. split; [rewrite Hs1; exact Ez|]. exists model'. simpl in *.
        rewrite Hd in Hz, Hm1. auto. }
      exists bcs. rewrite Hs1, HB1. auto.
    + simpl in Hm1.
      destruct (add_blocking_clauses_spec st1) as (st2 & Habc & Hs2 & HB2).
      assert (Hd2 : m_side st2 = m_side st1 ∧ m_model st2 = m_model st1).
      { unfold add_blocking_clauses in Habc. injection Habc as <-. auto. }
      destruct Hd2 as [Hd2 Hm2].
      set (bc := blocking_clause (m_active_bool_lits st1)) in *.
      rewrite Habc.
      assert (HB2' : m_blocking_clauses st2 = list_to_set (bcs ++ [bc])).
      { rewrite HB2, HB1, HB, list_to_set_app_L. simpl.
        rewrite (right_id_L ∅ (∪)), (comm_L (∪)). reflexivity. }
      destruct (bool_decide (bc ∉ m_blocking_clauses st1)) eqn:Edec.
      * apply bool_decide_eq_true_1 in Edec. apply (IH st2).
        split; [congruence|]. split; [congruence|].
        exists (bcs ++ [bc]). split; [rewrite Hs2, Hs1, Hs, <- app_assoc; reflexivity|].
        split; [exact HB2'|].
        apply NoDup_app. split; [exact Hnd|]. split; [|apply NoDup_singleton].
        intros x Hx Hx'. apply list_elem_of_singleton in Hx'. subst x.
        apply Edec. rewrite HB1, HB. apply elem_of_list_to_set, Hx.
      * intros [= <- <-]. split; [congruence|]. split.
        { rewrite Hm2, Hm1, Hm. split; [discriminate|intros [? ?]; discriminate]. }
        split; [discriminate|].
        exists (bcs ++ [bc]). split; [rewrite Hs2, Hs1, Hs, <- app_assoc; reflexivity|].
        split; [exact HB2'|]. intros Hne. destruct Hne. reflexivity.
  - intros [= <- <-]. simpl. split; [exact Hd|]. split.
    { rewrite Hm. split; [discriminate|intros [? ?]; discriminate]. }
    split; [discriminate|]. exists bcs. auto.
  - intros [= <- <-]. simpl. split; [exact Hd|]. split.
    { rewrite Hm. split; [discriminate|intros [? ?]; discriminate]. }
    split; [discriminate|]. exists bcs. split; [exact Hs|]. split; [exact HB|].
    intros Hne. destruct Hne. reflexivity.
Qed.

Lemma solve_init_invariant st0 :
  solve_init ext = Some st0 →
  ∃ abs_side, bool_abstraction_vec (vc_side ext) [] = Some abs_side ∧
              engine_invariant ext abs_side st0.
Proof.
  unfold solve_init.
  destruct (bool_abstraction_vec (vc_side ext) []) as [abs|]; [|discriminate].
  simpl. intros [= <-]. exists abs. split; [reflexivity|].
  split; [reflexivity|]. split; [reflexivity|]. exists [].
  simpl. rewrite app_nil_r. split; [reflexivity|]. split; [reflexivity|constructor].
Qed.

(** X19. The primary solver is never reset after the abstraction is
    asserted: when [solve] returns, the context of the primary solver is the
    abstraction of the precise encoding followed by the blocking clauses in
    the order of their assertion, the set of blocking clauses is the set of
    these clauses, the precise encoding is untouched, and unless the answer
    is indeterminate no blocking clause was asserted twice. *)
Theorem solve_context (fuel : nat) (r : tribool) (st : Engine ZModel) :
  solve ext fuel = Some (r, st) →
  ∃ abs_side bcs,
    bool_abstraction_vec (vc_side ext) [] = Some abs_side ∧
    m_side st = vc_side ext ∧
    m_smt_solver st = abs_side ++ bcs ∧
    m_blocking_clauses st = list_to_set bcs ∧
    (r ≠ indeterminate → NoDup bcs).
Proof.
  unfold solve. destruct (solve_init ext) as [st0|] eqn:Hinit; [|discriminate].
  simpl. intros Hloop.
  destruct (solve_init_invariant st0 Hinit) as (abs & Habs & Hinv).
  destruct (solve_loop_final abs fuel st0 r st Hinv Hloop)
    as (Hd & _ & _ & bcs & Hs & HB & Hnd).
  exists abs, bcs. auto.
Qed.

(** X20. On a new engine [solve] answers true exactly when it has cached a
    precise model, which [getTrace] then uses: the model is the one that the
    solver gave for a path formula that it found satisfiable, and the
    context of the primary solver is one that the solver found satisfiable.
    With any other answer no model is cached. *)
Theorem solve_true_iff_model (fuel : nat) (r : tribool) (st : Engine ZModel) :
  solve ext fuel = Some (r, st) →
  (r = tri_true ↔ is_Some (m_model st)) ∧
  (r = tri_true →
   z3_solve ext (m_smt_solver st) = tri_true ∧
   ∃ model, let pf := std_unique (std_sort (expr_lt ext)
               (get_model_implicant ext (vc_side ext) model).1) in
     z3_solve ext pf = tri_true ∧ m_model st = Some (z3_getModel ext pf)).
Proof.
  unfold solve. destruct (solve_init ext) as [st0|] eqn:Hinit; [|discriminate].
  simpl. intros Hloop.
  destruct (solve_init_invariant st0 Hinit) as (abs & Habs & Hinv).
  destruct (solve_loop_final abs fuel st0 r st Hinv Hloop) as (_ & Hiff & Htrue & _).
  auto.
Qed.

(** X21. When the solver does not find the abstraction satisfiable, [solve]
    returns its answer in the first turn: no path is refined, no blocking
    clause is added, the context of the primary solver is the abstraction,
    and no model is cached. *)
Theorem solve_first_answer (fuel : nat) (abs_side : list Expr) :
  bool_abstraction_vec (vc_side ext) [] = Some abs_side →
  z3_solve ext abs_side ≠ tri_true →
  ∃ st, solve ext (S fuel) = Some (z3_solve ext abs_side, st) ∧
        m_smt_solver st = abs_side ∧
        m_blocking_clauses st = ∅ ∧
        m_active_bool_lits st = [] ∧
        m_model st = None.
Proof.
  intros Habs Hz. unfold solve, solve_init. rewrite Habs. simpl.
  destruct (z3_solve ext abs_side) eqn:E; [destruct Hz; reflexivity| |];
    simpl; eexists; (split; [reflexivity|]); simpl; auto.
Qed.


End EngineFurther.

Lemma path_encoding_and_solve_with_smt_result_witness :
  let ext := clash_externals in
  let st := set_result first_head tri_true in
  let implicant := (get_model_implicant ext (m_side st) tt).1 in
  let mapLit := (get_model_implicant ext (m_side st) tt).2 in
  let path_formula := std_unique (std_sort (expr_lt ext) implicant) in
  strict_total_order (expr_lt ext) ∧
  implicant = [x_is "2"; bp 0; x_is "1"; bp 0; bp 1] ∧
  path_formula = [x_is "2"; x_is "1"; bp 0; bp 1] ∧
  (∃ st0, path_encoding_and_solve_with_smt ext st tt = Some (tri_false, st0) ∧
          m_aux_smt_solver st0 = path_formula ∧
          m_active_bool_lits st0 = [bp 0; bp 1]) ∧
  (∀ e, e ∈ path_formula ↔ e ∈ implicant) ∧
  (strict_total_order (expr_lt ext) →
   StronglySorted (λ a b, expr_lt ext a b = true) path_formula ∧
   NoDup path_formula) ∧
  ∃ st',
    path_encoding_and_solve_with_smt ext st tt
      = Some (z3_solve ext path_formula, st') ∧
    m_side st' = m_side st ∧ m_smt_solver st' = m_smt_solver st ∧
    m_blocking_clauses st' = m_blocking_clauses st ∧
    m_result st' = m_result st ∧
    match z3_solve ext path_formula with
    | tri_true =>
        m_aux_smt_solver st' = path_formula ∧
        m_model st' = Some (z3_getModel ext path_formula) ∧
        m_active_bool_lits st' = m_active_bool_lits st
    | tri_false =>
        m_aux_smt_solver st' = unsat_core_solver ext path_formula ∧
        m_model st' = m_model st ∧
        (strict_total_order (expr_lt ext) →
         StronglySorted (λ a b, expr_lt ext a b = true) (m_active_bool_lits st') ∧
         NoDup (m_active_bool_lits st')) ∧
        ∀ l, l ∈ m_active_bool_lits st' ↔
             ∃ c, c ∈ unsat_core ext path_formula ∧ mapLit !! c = Some l
    | indeterminate =>
        m_aux_smt_solver st' = path_formula ∧
        m_model st' = m_model st ∧
        m_active_bool_lits st' = m_active_bool_lits st
    end.
Proof.
  intros ext st implicant mapLit path_formula.
  split; [exact encode_lt_order|].
  split; [reflexivity|]. split; [vm_compute; reflexivity|].
  split; [eexists; split; [vm_compute; reflexivity|split; vm_compute; reflexivity]|].
  exact (path_encoding_and_solve_with_smt_result ext st tt).
Defined.

Lemma solve_context_witness :
  ∃ st abs_side bcs,
    solve (refuting_externals {[FALSE := bp 1]}) 3 = Some (indeterminate, st) ∧
    bool_abstraction_vec (vc_side (refuting_externals {[FALSE := bp 1]})) []
      = Some abs_side ∧
    m_side st = vc_side (refuting_externals {[FALSE := bp 1]}) ∧
    m_smt_solver st = abs_side ++ bcs ∧
    m_blocking_clauses st = list_to_set bcs ∧
    (indeterminate ≠ indeterminate → NoDup bcs).
Proof.
  eexists.
  assert (H : ∀ st, solve (refuting_externals {[FALSE := bp 1]}) 3
                    = Some (indeterminate, st) →
              ∃ abs_side bcs,
                solve (refuting_externals {[FALSE := bp 1]}) 3
                  = Some (indeterminate, st) ∧
                bool_abstraction_vec
                  (vc_side (refuting_externals {[FALSE := bp 1]})) []
                  = Some abs_side ∧
                m_side st = vc_side (refuting_externals {[FALSE := bp 1]}) ∧
                m_smt_solver st = abs_side ++ bcs ∧
                m_blocking_clauses st = list_to_set bcs ∧
                (indeterminate ≠ indeterminate → NoDup bcs)).
  { intros st Hst.
    destruct (solve_context (refuting_externals {[FALSE := bp 1]}) 3
                indeterminate st Hst) as (abs & bcs & H).
    exists abs, bcs. split; [exact Hst|exact H]. }
  apply H. vm_compute. reflexivity.
Defined.

Lemma solve_true_iff_model_witness :
  ∃ st,
    solve feasible_externals 1 = Some (tri_true, st) ∧
    (tri_true = tri_true ↔ is_Some (m_model st)) ∧
    (tri_true = tri_true →
     z3_solve feasible_externals (m_smt_solver st) = tri_true ∧
     ∃ model, let pf := std_unique (std_sort (expr_lt feasible_externals)
                 (get_model_implicant feasible_externals
                    (vc_side feasible_externals) model).1) in
       z3_solve feasible_externals pf = tri_true ∧
       m_model st = Some (z3_getModel feasible_externals pf)).
Proof.
  eexists. split; [vm_compute; reflexivity|].
  apply (solve_true_iff_model feasible_externals 1 tri_true).
  vm_compute. reflexivity.
Defined.

Lemma solve_first_answer_witness :
  let ext := crab_externals in
  ∃ st, solve
          {| z3_solve := λ _, tri_false; z3_getModel := z3_getModel ext;
             unsat_core := unsat_core ext;
             unsat_core_solver := unsat_core_solver ext; expr_lt := expr_lt ext;
             vc_side := [bp 0; NEG (bp 0)];
             symb := symb ext; get_model_implicant := get_model_implicant ext;
             cps_size := 0; states := []; trace_blocks := trace_blocks ext;
             UseCrab := false; cfg := cfg ext; path_analyze := path_analyze ext |} 1
        = Some (tri_false, st) ∧
        m_smt_solver st = [bp 0; NEG (bp 0)] ∧
        m_blocking_clauses st = ∅ ∧
        m_active_bool_lits st = [] ∧
        m_model st = None.
Proof.
  intros ext.
  apply (solve_first_answer
           {| z3_solve := λ _, tri_false; z3_getModel := z3_getModel ext;
              unsat_core := unsat_core ext;
             unsat_core_solver := unsat_core_solver ext; expr_lt := expr_lt ext;
             vc_side := [bp 0; NEG (bp 0)];
              symb := symb ext; get_model_implicant := get_model_implicant ext;
              cps_size := 0; states := []; trace_blocks := trace_blocks ext;
              UseCrab := false; cfg := cfg ext; path_analyze := path_analyze ext |}
           0 [bp 0; NEG (bp 0)]).
  - reflexivity.
  - discriminate.
Defined.

